(** * ConditionalMMDecoder (nmtpytorch/layers/condmm_decoder.py)

    A shallow embedding of the conditional multimodal decoder: its
    constructor, the initialiser [f_init], the step orchestrator
    [f_next] and the teacher-forced loss accumulator [forward].

    Modelling conventions.
    - A tensor entry is a [scalar]: a real number, or one of the three
      IEEE special values that a division by zero produces.  Rounding is
      idealised away: finite arithmetic is exact real arithmetic.
    - Tensors are nested lists; the two context tensors carry their shape,
      because the code reads [txt_ctx.shape[1]] and sums over a dimension
      that may be empty.
    - Python exceptions are values of [exn]; a computation is a pair of
      the calls it made to the external layers (in order) and its result.
    - The learned layers (GRU cells, Attention, Fusion, FF, Dropout) are
      not part of this file of the repository: they are the fields of the
      class [Layers], total functions on tensors.  Shape errors raised
      inside them are outside the model. *)

From Stdlib Require Import Reals Lra Lia ZArith QArith.
From stdpp Require Import base list gmap strings.

Open Scope string_scope.
Open Scope list_scope.
Open Scope Z_scope.
Open Scope R_scope.
Open Scope nat_scope.
Open Scope stdpp_scope.

(** ** Scalars *)

Inductive scalar : Type :=
| Fin (r : R)
| PInf
| NInf
| NaN.

Definition is_fin (x : scalar) : Prop :=
  match x with Fin _ => True | _ => False end.

Definition fadd (x y : scalar) : scalar :=
  match x, y with
  | NaN, _ | _, NaN => NaN
  | Fin a, Fin b => Fin (a + b)
  | PInf, NInf | NInf, PInf => NaN
  | PInf, _ | _, PInf => PInf
  | NInf, _ | _, NInf => NInf
  end.

Definition fneg (x : scalar) : scalar :=
  match x with
  | Fin a => Fin (- a)
  | PInf => NInf
  | NInf => PInf
  | NaN => NaN
  end.

Definition fsub (x y : scalar) : scalar := fadd x (fneg y).

(** Division.  A zero divisor is the positive zero (the only zero a sum
    of mask entries produces): [a / 0] is an infinity of the sign of [a],
    and [0 / 0] is NaN. *)
Definition fdiv (x y : scalar) : scalar :=
  match x, y with
  | NaN, _ | _, NaN => NaN
  | Fin a, Fin b =>
      if Req_EM_T b 0 then
        if Rlt_dec 0 a then PInf
        else if Rlt_dec a 0 then NInf
        else NaN
      else Fin (a / b)
  | Fin _, _ => Fin 0
  | PInf, Fin b => if Rlt_dec b 0 then NInf else PInf
  | NInf, Fin b => if Rlt_dec b 0 then PInf else NInf
  | _, _ => NaN
  end.

Definition fexp (x : scalar) : scalar :=
  match x with
  | Fin a => Fin (exp a)
  | PInf => PInf
  | NInf => Fin 0
  | NaN => NaN
  end.

Definition flog (x : scalar) : scalar :=
  match x with
  | Fin a =>
      if Rlt_dec 0 a then Fin (ln a)
      else if Req_EM_T a 0 then NInf
      else NaN
  | PInf => PInf
  | _ => NaN
  end.

(** ** Tensors *)

Abbreviation vec := (list scalar).
Abbreviation mat := (list (list scalar)).

(** A context stream [S*B*C] and its mask [S*B], with their shapes. *)
Record tensor3 : Type := Tensor3 {
  size0 : nat;
  size1 : nat;
  size2 : nat;
  elems3 : list mat
}.

Record tensor2 : Type := Tensor2 {
  rows : nat;
  cols : nat;
  elems2 : list vec
}.

Definition zeros1 (n : nat) : vec := replicate n (Fin 0).
Definition zeros (m n : nat) : mat := replicate m (zeros1 n).

Definition vadd (u v : vec) : vec := zip_with fadd u v.
Definition madd (a b : mat) : mat := zip_with vadd a b.

(** [t.sum()] over every entry of a vector. *)
Definition vsum (v : vec) : scalar := foldl fadd (Fin 0) v.

(** [t.sum(0)]: the sum over the first dimension, starting from the zero
    tensor of the remaining shape. *)
Definition sum0_3 (t : tensor3) : mat :=
  foldl madd (zeros (size1 t) (size2 t)) (elems3 t).

Definition sum0_2 (m : tensor2) : vec :=
  foldl vadd (zeros1 (cols m)) (elems2 m).

(** [v.unsqueeze(1)]: a [B] vector becomes a [B*1] matrix. *)
Definition unsqueeze1 (v : vec) : mat := map (λ x, [x]) v.

(** [h.unsqueeze(0)]: a [B*H] matrix becomes a [1*B*H] tensor. *)
Definition unsqueeze0 (h : mat) : list mat := [h].

(** [a / d] where [d] is [B*1] and broadcasts along the rows of [a]. *)
Definition tdiv (a d : mat) : mat :=
  zip_with (λ row drow,
    match drow with
    | [x] => map (λ e, fdiv e x) row
    | _ => zip_with fdiv row drow
    end) a d.

(** [-F.log_softmax(scores, dim=-1)] on one row and on a batch. *)
Definition log_softmax_row (x : vec) : vec :=
  let s := vsum (map fexp x) in
  map (λ e, fsub e (flog s)) x.

Definition neg_log_softmax (scores : mat) : mat :=
  map (λ row, map fneg (log_softmax_row row)) scores.

(** ** Exceptions, call log and the computation monad *)

Inductive exn : Type :=
| KeyError (k : string)
| IndexError
| AttributeError (a : string)
| AssertionError
| ValueError
| TypeError.

Inductive result (A : Type) : Type :=
| Ok (a : A)
| Raise (e : exn).
Arguments Ok {A} a.
Arguments Raise {A} e.

Definition is_ok {A} (r : result A) : Prop :=
  match r with Ok _ => True | Raise _ => False end.

(** What a run leaves behind: every call to an external layer with its
    arguments, every entry to and return from [f_next], and every term
    added to the loss. *)
Inductive event : Type :=
| Call_dec0 (y : mat) (h : option mat)
| Call_txt_att (q : list mat) (ctx : tensor3) (mask : tensor2)
| Call_img_att (q : list mat) (ctx : tensor3) (mask : tensor2)
| Call_fusion (txt_z img_z : mat)
| Call_dec1 (z h1 : mat)
| Call_hid2out (h2 : mat)
| Call_do_out (seed : nat) (logit : mat)
| Call_out2prob (W logit : mat)
| Call_ff_dec_init (x : mat)
| Enter_f_next (y : mat) (h : option mat)
| Leave_f_next (log_p h2 : mat)
| Add_loss (index : list Z) (term : scalar).

Definition M (A : Type) : Type := (list event * result A)%type.

#[global] Instance M_ret : MRet M := λ A a, ([], Ok a).
#[global] Instance M_bind : MBind M := λ A B f m,
  match m with
  | (l, Ok a) => let '(l', r) := f a in (l ++ l', r)
  | (l, Raise e) => (l, Raise e)
  end.

Definition raise {A} (e : exn) : M A := ([], Raise e).
Definition emit (e : event) : M unit := ([e], Ok tt).
Definition lift {A} (r : result A) : M A := ([], r).

(** [for x in xs: acc = body(x, acc)] *)
Fixpoint for_each {A S} (xs : list A) (body : A → S → M S) (acc : S) : M S :=
  match xs with
  | [] => mret acc
  | x :: xs' => acc' ← body x acc; for_each xs' body acc'
  end.

(** [range(n)] for a Python integer [n]: empty when [n <= 0]. *)
Definition range (n : Z) : list nat := seq 0 (Z.to_nat n).

(** [d[k]] on a dictionary. *)
Definition dict_get {V} (d : gmap string V) (k : string) : M V :=
  match d !! k with
  | Some v => mret v
  | None => raise (KeyError k)
  end.

(** [xs[i]] on a list or along the first dimension of a tensor, for a
    non-negative [i]. *)
Definition index {A} (xs : list A) (i : nat) : M A :=
  match xs !! i with
  | Some x => mret x
  | None => raise IndexError
  end.

(** [xs[i]] for a Python integer held in an index tensor: ids outside
    [0, len) are rejected, as the embedding and [gather] kernels do. *)
Definition index_id {A} (xs : list A) (i : Z) : M A :=
  if decide (0 ≤ i)%Z then index xs (Z.to_nat i) else raise IndexError.

(** [map] with a fallible function, left to right. *)
Fixpoint mapM_ {A B} (f : A → M B) (xs : list A) : M (list B) :=
  match xs with
  | [] => mret []
  | x :: xs' => y ← f x; ys ← mapM_ f xs'; mret (y :: ys)
  end.

(** ** The external layers *)

Class Layers : Type := {
  (** [nn.GRUCell] instances: stage 1 and stage 2. *)
  dec0 : mat → mat → mat;
  dec1 : mat → mat → mat;
  (** Stage 1 handed [None] as hidden state: raises or substitutes zeros,
      depending on the PyTorch release; left open. *)
  dec0_nohx : mat → result mat;
  (** [Attention] instances: return [(alpha, z)]. *)
  txt_att : list mat → tensor3 → tensor2 → mat * mat;
  img_att : list mat → tensor3 → tensor2 → mat * mat;
  fusion : mat → mat → mat;
  (** [FF] instances; the vocabulary projection takes its weight matrix
      explicitly because that matrix may be the embedding table. *)
  hid2out : mat → mat;
  out2prob : mat → mat → mat;
  ff_dec_init : mat → mat;
  (** [nn.Dropout]: the first argument stands for the state of the random
      generator at the call, from which the mask of that call is drawn;
      different calls and different runs come with different seeds. *)
  do_out : nat → mat → mat
}.

(** ** The module object and the parameter store *)

(** Parameter tensors live in a store and are referred to by address, so
    that two attributes can name the same tensor. *)
Abbreviation loc := nat.
Abbreviation store := (gmap nat mat).

(** The attributes of the module that its methods read.  [mod_order] is
    read by no method, and the layer objects themselves are the fields of
    [Layers]; neither is stored here. *)
Record decoder : Type := Decoder {
  input_size : nat;
  hidden_size : nat;
  ctx_size_dict : gmap string nat;
  n_vocab : nat;
  tied_emb : bool;
  dec_init : string;
  att_type : string;
  att_bottleneck : string;
  att_activ : string;
  dropout_out : Q;
  (** [self.emb.weight] and [self.out2prob.weight] *)
  emb_weight : loc;
  out2prob_weight : loc;
  (** attributes that exist only under some configurations *)
  has_ff_dec_init : bool;
  has_do_out : bool
}.

Record init_args : Type := InitArgs {
  arg_input_size : nat;
  arg_hidden_size : nat;
  arg_ctx_size_dict : gmap string nat;
  arg_n_vocab : nat;
  arg_fusion_type : string;
  arg_tied_emb : bool;
  arg_dec_init : string;
  arg_att_type : string;
  arg_att_activ : string;
  arg_att_bottleneck : string;
  arg_dropout_out : Q
}.

(** The defaults of the signature. *)
Definition default_args (input hidden : nat) (sizes : gmap string nat)
    (vocab : nat) : init_args :=
  InitArgs input hidden sizes vocab "concat" false "zero" "mlp" "tanh" "ctx" 0.

(** The random initial values of the two weight matrices. *)
Record draws : Type := Draws {
  emb_entry : nat → nat → scalar;
  out2prob_entry : nat → nat → scalar
}.

Definition init_mat (m n : nat) (f : nat → nat → scalar) : mat :=
  map (λ i, map (f i) (seq 0 n)) (seq 0 m).

Definition positive_rate (p : Q) : bool := negb (Qle_bool p 0).

(** [nn.Embedding(n_vocab, input_size, padding_idx=0)]: the table is
    drawn, then row [padding_idx] is filled with zeros; the padding index
    must be a row of the table. *)
Definition new_embedding (vocab width : nat) (f : nat → nat → scalar)
    : result mat :=
  if decide (0 < vocab) then Ok (<[0 := zeros1 width]> (init_mat vocab width f))
  else Raise AssertionError.

(** [nn.Dropout(p)] accepts probabilities only. *)
Definition new_dropout (p : Q) : result unit :=
  if Qle_bool 0 p && Qle_bool p 1 then Ok tt else Raise ValueError.

Definition alloc (σ : store) (w : mat) : loc * store :=
  let l := fresh (dom σ) in (l, <[l := w]> σ).

(** [ConditionalMMDecoder.__init__], in the order of the source: the
    embedding table is created, the sizes of the two modalities are looked
    up under ["txt"] and ["img"], the initialiser's projection is created
    for ["mean_ctx"] only, dropout for a positive rate only (and then the
    rate has to be a probability), the projection weight is created, and
    with [tied_emb] the projection's weight attribute is rebound to the
    embedding table.  The constructors of [Fusion], [Attention], [GRUCell]
    and [FF] are not part of this file of the repository; whatever they
    may raise for their own arguments is outside the model. *)
Definition __init__ (a : init_args) (rnd : draws) (σ : store)
    : result (decoder * store) :=
  match new_embedding (arg_n_vocab a) (arg_input_size a) (emb_entry rnd) with
  | Raise e => Raise e
  | Ok w_emb =>
    let '(l_emb, σ1) := alloc σ w_emb in
    match arg_ctx_size_dict a !! "txt" with
    | None => Raise (KeyError "txt")
    | Some _ =>
      match arg_ctx_size_dict a !! "img" with
      | None => Raise (KeyError "img")
      | Some _ =>
        let ff := bool_decide (arg_dec_init a = "mean_ctx") in
        let drop := positive_rate (arg_dropout_out a) in
        match (if drop then new_dropout (arg_dropout_out a) else Ok tt) with
        | Raise e => Raise e
        | Ok _ =>
          let w_out :=
            init_mat (arg_n_vocab a) (arg_input_size a) (out2prob_entry rnd) in
          let '(l_out, σ2) := alloc σ1 w_out in
          let l_proj := if arg_tied_emb a then l_emb else l_out in
          Ok (Decoder (arg_input_size a) (arg_hidden_size a)
                (arg_ctx_size_dict a) (arg_n_vocab a) (arg_tied_emb a)
                (arg_dec_init a) (arg_att_type a) (arg_att_bottleneck a)
                (arg_att_activ a) (arg_dropout_out a)
                l_emb l_proj ff drop, σ2)
        end
      end
    end
  end.

(** ** The methods *)

Section Methods.
Context `{Layers}.

(** [to_var(t, requires_grad=False)] wraps a tensor without changing its
    entries. *)
Definition to_var (t : mat) : mat := t.

(** [self.emb(y)]: every id of the [T*B] index tensor is replaced by its
    row of the table. *)
Definition emb_row (W : mat) (ids : list Z) : M mat := mapM_ (index_id W) ids.

Definition emb (W : mat) (y : list (list Z)) : M (list mat) :=
  mapM_ (emb_row W) y.

(** [torch.gather(log_p, dim=1, index=idx.unsqueeze(1))]: entry [idx[b]]
    of row [b], for every [b]. *)
Fixpoint gather (log_p : mat) (idx : list Z) {struct idx} : M vec :=
  match idx with
  | [] => mret []
  | i :: idx' =>
      match log_p with
      | [] => raise IndexError
      | row :: log_p' =>
          x ← index_id row i; xs ← gather log_p' idx'; mret (x :: xs)
      end
  end.

(** [ConditionalMMDecoder.f_init]; a call that falls off the end of the
    body returns [None]. *)
Definition f_init (d : decoder) (txt_ctx : tensor3) (txt_ctx_mask : tensor2)
    : M (option mat) :=
  if decide (dec_init d = "zero") then
    let h_0 := zeros (size1 txt_ctx) (hidden_size d) in
    mret (Some (to_var h_0))
  else if decide (dec_init d = "mean_ctx") then
    if has_ff_dec_init d then
      let x := tdiv (sum0_3 txt_ctx) (unsqueeze1 (sum0_2 txt_ctx_mask)) in
      _ ← emit (Call_ff_dec_init x);
      mret (Some (ff_dec_init x))
    else raise (AttributeError "ff_dec_init")
  else mret None.

Definition call_dec0 (y : mat) (h : option mat) : M mat :=
  _ ← emit (Call_dec0 y h);
  match h with
  | Some h => mret (dec0 y h)
  | None => lift (dec0_nohx y)
  end.

Definition call_txt_att (q : list mat) (c : tensor3 * tensor2) : M (mat * mat) :=
  _ ← emit (Call_txt_att q c.1 c.2); mret (txt_att q c.1 c.2).

Definition call_img_att (q : list mat) (c : tensor3 * tensor2) : M (mat * mat) :=
  _ ← emit (Call_img_att q c.1 c.2); mret (img_att q c.1 c.2).

Definition call_fusion (a b : mat) : M mat :=
  _ ← emit (Call_fusion a b); mret (fusion a b).

Definition call_dec1 (z h1 : mat) : M mat :=
  _ ← emit (Call_dec1 z h1); mret (dec1 z h1).

Definition call_hid2out (h2 : mat) : M mat :=
  _ ← emit (Call_hid2out h2); mret (hid2out h2).

Definition call_do_out (seed : nat) (d : decoder) (logit : mat) : M mat :=
  if has_do_out d then
    _ ← emit (Call_do_out seed logit); mret (do_out seed logit)
  else raise (AttributeError "do_out").

Definition call_out2prob (W logit : mat) : M mat :=
  _ ← emit (Call_out2prob W logit); mret (out2prob W logit).

(** The body of [f_next] between entry and return.  [seed] is the state
    of the random generator when the call is made. *)
Definition f_next_body (seed : nat) (d : decoder) (σ : store)
    (ctx_dict : gmap string (tensor3 * tensor2)) (y : mat) (h : option mat)
    : M (mat * mat) :=
  h1 ← call_dec0 y h;
  txt ← dict_get ctx_dict "txt";
  '(txt_alpha_t, txt_z_t) ← call_txt_att (unsqueeze0 h1) txt;
  img ← dict_get ctx_dict "image";
  '(img_alpha_t, img_z_t) ← call_img_att (unsqueeze0 h1) img;
  final_z_t ← call_fusion txt_z_t img_z_t;
  h2 ← call_dec1 final_z_t h1;
  logit ← call_hid2out h2;
  logit ← (if positive_rate (dropout_out d) then call_do_out seed d logit
            else mret logit);
  scores ← call_out2prob (σ !!! out2prob_weight d) logit;
  let log_p := neg_log_softmax scores in
  mret (log_p, h2).

(** [ConditionalMMDecoder.f_next] *)
Definition f_next (seed : nat) (d : decoder) (σ : store)
    (ctx_dict : gmap string (tensor3 * tensor2)) (y : mat) (h : option mat)
    : M (mat * mat) :=
  _ ← emit (Enter_f_next y h);
  r ← f_next_body seed d σ ctx_dict y h;
  _ ← emit (Leave_f_next r.1 r.2);
  mret r.

(** One iteration of the loop of [forward]; [seeds t] is the state of the
    random generator at step [t] of this run. *)
Definition forward_step (seeds : nat → nat) (d : decoder) (σ : store)
    (ctx_dict : gmap string (tensor3 * tensor2))
    (y_emb : list mat) (y : list (list Z))
    (t : nat) (st : scalar * option mat) : M (scalar * option mat) :=
  let '(loss, h) := st in
  y_t ← index y_emb t;
  '(log_p, h') ← f_next (seeds t) d σ ctx_dict y_t h;
  y_next ← index y (t + 1);
  picked ← gather log_p y_next;
  let term := vsum picked in
  _ ← emit (Add_loss y_next term);
  mret (fadd loss term, Some h').

(** [ConditionalMMDecoder.forward] *)
Definition forward (seeds : nat → nat) (d : decoder) (σ : store)
    (ctx_dict : gmap string (tensor3 * tensor2)) (y : list (list Z))
    : M scalar :=
  let loss := Fin 0 in
  y_emb ← emb (σ !!! emb_weight d) y;
  txt ← dict_get ctx_dict "txt";
  h ← f_init d txt.1 txt.2;
  st ← for_each (range (Z.of_nat (length y_emb) - 1))
         (forward_step seeds d σ ctx_dict y_emb y) (loss, h);
  mret st.1.

End Methods.

(** ** Reading a call log *)

Definition f_next_inputs (log : list event) : list (mat * option mat) :=
  omap (λ e, match e with Enter_f_next y h => Some (y, h) | _ => None end) log.

Definition f_next_outputs (log : list event) : list (mat * mat) :=
  omap (λ e, match e with Leave_f_next p h => Some (p, h) | _ => None end) log.

Definition loss_terms (log : list event) : list (list Z * scalar) :=
  omap (λ e, match e with Add_loss i x => Some (i, x) | _ => None end) log.

(** The calls of the vocabulary projection: weight and argument. *)
Definition out2prob_calls (log : list event) : list (mat * mat) :=
  omap (λ e, match e with Call_out2prob W x => Some (W, x) | _ => None end)
    log.

(** ** Well-formedness *)

(** What the constructor guarantees about the optional attributes. *)
Definition wf_decoder (d : decoder) : Prop :=
  has_ff_dec_init d = bool_decide (dec_init d = "mean_ctx") ∧
  has_do_out d = positive_rate (dropout_out d).

(** The layers keep the batch dimension, and the vocabulary projection
    yields one score per row of its weight matrix. *)
Class LayerShapes `{Layers} : Prop := {
  dec0_batch : ∀ y h, length (dec0 y h) = length y;
  dec1_batch : ∀ z h1, length (dec1 z h1) = length h1;
  hid2out_batch : ∀ h2, length (hid2out h2) = length h2;
  do_out_batch : ∀ seed x, length (do_out seed x) = length x;
  out2prob_batch : ∀ W x, length (out2prob W x) = length x;
  out2prob_width : ∀ W x, Forall (λ r, length r = length W) (out2prob W x)
}.

(** Every id of the index tensor is a row of a table with [V] rows. *)
Definition valid_ids (V : nat) (y : list (list Z)) : Prop :=
  Forall (Forall (λ i, (0 ≤ i < Z.of_nat V)%Z)) y.

(** The index tensor is rectangular: [T] rows of [B] ids. *)
Definition rect (B : nat) (y : list (list Z)) : Prop :=
  Forall (λ r, length r = B) y.

(** ** A concrete set of layers

    A network whose cells and projection have zero weights: every hidden
    state and every score is zero; the initialiser's projection is the
    saturating nonlinearity alone. *)

Definition ftanh (x : scalar) : scalar :=
  match x with
  | Fin a => Fin (tanh a)
  | PInf => Fin 1
  | NInf => Fin (-1)
  | NaN => NaN
  end.

Definition zero_layers : Layers := {|
  dec0 := λ y h, zeros (length y) 1;
  dec1 := λ z h1, zeros (length h1) 1;
  dec0_nohx := λ y, Raise TypeError;
  txt_att := λ q c m, ([], zeros (size1 c) 1);
  img_att := λ q c m, ([], zeros (size1 c) 1);
  fusion := λ a b, a;
  hid2out := λ h2, h2;
  out2prob := λ W x, map (λ _, map (λ _, Fin 0) W) x;
  ff_dec_init := λ x, map (map ftanh) x;
  do_out := λ _ x, x
|}.

(** ** Reading a distribution *)

(** The sum of a list of reals. *)
Definition Rsum (rs : list R) : R := foldr Rplus 0%R rs.

(** Undoing the negation and exponentiating: the probability mass that a
    row of negative log-probabilities carries. *)
Definition prob_mass (row : vec) : scalar :=
  vsum (map (λ e, fexp (fneg e)) row).

(** An entry that is a non-negative real. *)
Definition nonneg (e : scalar) : Prop := ∃ r, e = Fin r ∧ (0 <= r)%R.

(** ** Reading a table and a score matrix by position

    An embedding lookup and a selection along the vocabulary, stated with
    positions alone. *)

(** [x] holds, for every id of [ids] and in the same order, the row of [W]
    at that id. *)
Definition rows_of (W : mat) (ids : list Z) (x : mat) : Prop :=
  Forall2 (λ id row, (0 ≤ id)%Z ∧ W !! Z.to_nat id = Some row) ids x.

(** [picked[b]] is the entry of row [b] of [log_p] in column [ids[b]], for
    every batch element [b]. *)
Definition entries_at (log_p : mat) (ids : list Z) (picked : vec) : Prop :=
  length picked = length ids ∧
  ∀ b id, ids !! b = Some id →
    ∃ (row : vec) e, log_p !! b = Some row ∧ (0 ≤ id)%Z ∧
                     row !! Z.to_nat id = Some e ∧ picked !! b = Some e.

(** ** What a teacher-forced step looks like in a log

    Step [k] of a loop that started at time [a]: [f_next] was entered with
    the rows of the table [W] at the ids [y[a+k]], returned [log_p], and
    the term added to the loss is the sum over the batch of the entries of
    [log_p] in the columns [y[a+k+1]]; the events of the call are part of
    the log. *)
Definition teacher_forced_step `{Layers} (seeds : nat → nat) (d : decoder)
    (σ : store)
    (ctx_dict : gmap string (tensor3 * tensor2)) (W : mat)
    (y : list (list Z)) (log : list event) (a k : nat) : Prop :=
  ∃ (ids y_next : list Z) (x_t h_t log_p h2 : mat) (picked : vec)
    (step_log : list event),
    y !! (a + k) = Some ids ∧
    y !! (a + k + 1) = Some y_next ∧
    rows_of W ids x_t ∧
    f_next_inputs log !! k = Some (x_t, Some h_t) ∧
    f_next (seeds (a + k)) d σ ctx_dict x_t (Some h_t)
    = (step_log, Ok (log_p, h2)) ∧
    f_next_outputs log !! k = Some (log_p, h2) ∧
    entries_at log_p y_next picked ∧
    loss_terms log !! k = Some (y_next, foldl fadd (Fin 0) picked) ∧
    step_log ⊆ log.

(** The hidden state entering step [k+1] is the one step [k] returned; the
    one entering step 0 is [h0]. *)
Definition hidden_threaded (h0 : option mat) (log : list event) : Prop :=
  map snd (f_next_inputs log) =
    take (length (f_next_inputs log))
      (h0 :: map (λ r, Some r.2) (f_next_outputs log)).

(** ** A small configuration

    Batch size 1, one textual and one visual position, a vocabulary of two
    tokens, embedding and hidden width 1, default options. *)

Definition demo_stream : tensor3 * tensor2 :=
  (Tensor3 1 1 1 [[[Fin 1]]], Tensor2 1 1 [[Fin 1]]).

Definition demo_ctx_dict : gmap string (tensor3 * tensor2) :=
  <["txt" := demo_stream]> (<["image" := demo_stream]> ∅).

Definition demo_sizes : gmap string nat :=
  <["txt" := 1]> (<["img" := 1]> ∅).

Definition demo_args : init_args := default_args 1 1 demo_sizes 2.

Definition demo_draws : draws := Draws (λ _ _, Fin 1) (λ _ _, Fin 1).

Definition demo_decoder : decoder :=
  Decoder 1 1 demo_sizes 2 false "zero" "mlp" "ctx" "tanh" 0 0 1 false false.

(** One embedded time step and one hidden state for that batch. *)
Definition demo_y : mat := [[Fin 0]].
Definition demo_h : mat := [[Fin 0]].

Definition demo_store : store :=
  <[1 := [[Fin 1]; [Fin 1]]]> (<[0 := [[Fin 0]; [Fin 1]]]> ∅).

(** The row [f_next] returns in the small configuration: the negated
    log-softmax of two zero scores. *)
Definition demo_row : vec := map fneg (log_softmax_row [Fin 0; Fin 0]).

(** A target sequence of two time steps for a batch of one: token 1, then
    the padding token 0. *)
Definition demo_target : list (list Z) := [[1%Z]; [0%Z]].

(** The generator states of one run: step [t] draws from state [t]. *)
Definition demo_seeds : nat → nat := λ t, t.

(** ** Parameter mutation *)

(** An in-place update of the tensor at one address, as an optimiser step
    performs on a parameter. *)
Definition param_update (l : loc) (f : mat → mat) (σ : store) : store :=
  alter f l σ.

Definition param_updates (us : list (loc * (mat → mat))) (σ : store) : store :=
  foldl (λ σ' u, param_update u.1 u.2 σ') σ us.

(** Row [i] of the embedding table and of the projection's weight. *)
Definition emb_weight_row (d : decoder) (σ : store) (i : nat) : option vec :=
  (σ !!! emb_weight d) !! i.

Definition out2prob_weight_row (d : decoder) (σ : store) (i : nat)
    : option vec :=
  (σ !!! out2prob_weight d) !! i.

(** ** Further configurations *)

(** The small configuration with tied embeddings. *)
Definition tied_args : init_args :=
  InitArgs 1 1 demo_sizes 2 "concat" true "zero" "mlp" "tanh" "ctx" 0.

(** The small configuration with an initialiser policy that is neither
    ["zero"] nor ["mean_ctx"]. *)
Definition odd_args : init_args :=
  InitArgs 1 1 demo_sizes 2 "concat" false "last_ctx" "mlp" "tanh" "ctx" 0.


Definition img_ctx_dict : gmap string (tensor3 * tensor2) :=
  <["txt" := demo_stream]> (<["img" := demo_stream]> ∅).


(** The negative log-probability of token 0 under two zero scores. *)
Definition demo_term : scalar :=
  fneg (fsub (Fin 0) (flog (vsum (map fexp [Fin 0; Fin 0])))).

(** ** The mean over the valid positions

    The specification's reading of the [mean_ctx] policy, written from its
    words: per batch element, the sum of the vectors at the valid
    positions divided by the number of valid positions. *)

(** A mask entry marks a valid position when it is 1. *)
Definition valid (x : scalar) : bool :=
  match x with
  | Fin r => if Req_EM_T r 1 then true else false
  | _ => false
  end.

(** The vectors of batch element [b] along the stream, and its mask
    entries. *)
Definition ctx_col (ctx : tensor3) (b : nat) : list vec :=
  omap (λ m : mat, m !! b) (elems3 ctx).

Definition mask_col (mask : tensor2) (b : nat) : list scalar :=
  omap (λ r : vec, r !! b) (elems2 mask).

Definition keep_valid (p : vec * scalar) : option vec :=
  if valid p.2 then Some p.1 else None.

Definition valid_vectors (ctx : tensor3) (mask : tensor2) (b : nat)
    : list vec :=
  omap keep_valid (zip (ctx_col ctx b) (mask_col mask b)).

Definition masked_mean_row (ctx : tensor3) (mask : tensor2) (b : nat) : vec :=
  let vs := valid_vectors ctx mask b in
  map (λ e, fdiv e (Fin (INR (length vs))))
    (foldl vadd (zeros1 (size2 ctx)) vs).

Definition masked_mean (ctx : tensor3) (mask : tensor2) : mat :=
  map (masked_mean_row ctx mask) (seq 0 (size1 ctx)).

(** Shapes: the nested lists have the declared sizes. *)
Definition wf_tensor3 (t : tensor3) : Prop :=
  length (elems3 t) = size0 t ∧
  Forall (λ m : mat, length m = size1 t
                     ∧ Forall (λ r : vec, length r = size2 t) m) (elems3 t).

Definition wf_tensor2 (m : tensor2) : Prop :=
  length (elems2 m) = rows m ∧
  Forall (λ r : vec, length r = cols m) (elems2 m).

(** A stream and its mask describe the same [S*B] positions. *)
Definition same_positions (ctx : tensor3) (mask : tensor2) : Prop :=
  wf_tensor3 ctx ∧ wf_tensor2 mask ∧
  rows mask = size0 ctx ∧ cols mask = size1 ctx.

(** The mask holds only 0 and 1. *)
Definition binary_mask (mask : tensor2) : Prop :=
  Forall (Forall (λ x, x = Fin 0 ∨ x = Fin 1)) (elems2 mask).

(** Every padded position of the stream holds the zero vector. *)
Definition padding_is_zero (ctx : tensor3) (mask : tensor2) : Prop :=
  ∀ s b (m : mat) (r : vec),
    elems3 ctx !! s = Some m → elems2 mask !! s = Some r →
    r !! b = Some (Fin 0) → m !! b = Some (zeros1 (size2 ctx)).

(** Every batch element has a valid position. *)
Definition some_valid_position (mask : tensor2) : Prop :=
  ∀ b, b < cols mask → ∃ s (r : vec),
    elems2 mask !! s = Some r ∧ r !! b = Some (Fin 1).

(** Every entry of the stream is finite. *)
Definition finite_stream (ctx : tensor3) : Prop :=
  Forall (Forall (Forall is_fin)) (elems3 ctx).

(** ** Configurations for the [mean_ctx] policy *)

Definition mean_decoder : decoder :=
  Decoder 1 1 demo_sizes 2 false "mean_ctx" "mlp" "ctx" "tanh" 0 0 1 true false.

(** Two positions, the second one padding that does not hold zeros. *)
Definition dirty_ctx : tensor3 := Tensor3 2 1 1 [[[Fin 1]]; [[Fin 5]]].
Definition dirty_mask : tensor2 := Tensor2 2 1 [[Fin 1]; [Fin 0]].

(** Two positions, the second one padding that holds zeros. *)
Definition clean_ctx : tensor3 := Tensor3 2 1 1 [[[Fin 1]]; [[Fin 0]]].

(** One position, and it is padding. *)
Definition void_ctx : tensor3 := Tensor3 1 1 1 [[[Fin 0]]].
Definition void_mask : tensor2 := Tensor2 1 1 [[Fin 0]].

(** ** Further inputs for the small configuration *)

(** A target whose single id is not a row of the two-row tables. *)
Definition bad_target : list (list Z) := [[2%Z]].

(** A target of one time step. *)
Definition short_target : list (list Z) := [[1%Z]].

(** The module the constructor builds from [odd_args]. *)
Definition odd_decoder : decoder :=
  Decoder 1 1 demo_sizes 2 false "last_ctx" "mlp" "ctx" "tanh" 0 0 1
    false false.

(** Every score the vocabulary projection produced during a run is
    finite. *)
Definition finite_scores_in `{Layers} (log : list event) : Prop :=
  Forall (λ c, Forall (Forall is_fin) (out2prob c.1 c.2)) (out2prob_calls log).

(** ** Changing one option *)

(** The same arguments with another initialiser policy, and the same
    module with another stored policy. *)
Definition with_dec_init (a : init_args) (v : string) : init_args :=
  InitArgs (arg_input_size a) (arg_hidden_size a) (arg_ctx_size_dict a)
    (arg_n_vocab a) (arg_fusion_type a) (arg_tied_emb a) v (arg_att_type a)
    (arg_att_activ a) (arg_att_bottleneck a) (arg_dropout_out a).

Definition set_dec_init (d : decoder) (v : string) : decoder :=
  Decoder (input_size d) (hidden_size d) (ctx_size_dict d) (n_vocab d)
    (tied_emb d) v (att_type d) (att_bottleneck d) (att_activ d)
    (dropout_out d) (emb_weight d) (out2prob_weight d) (has_ff_dec_init d)
    (has_do_out d).

(** ** A set of layers that carries values through

    Cells that keep their state, a saturating bottleneck, a linear
    vocabulary projection without bias, and an output dropout that keeps
    every entry on an even generator state and drops every entry on an odd
    one. *)

Definition fmul (x y : scalar) : scalar :=
  match x, y with
  | NaN, _ | _, NaN => NaN
  | Fin a, Fin b => Fin (a * b)
  | Fin a, PInf | PInf, Fin a =>
      if Rlt_dec 0 a then PInf else if Rlt_dec a 0 then NInf else NaN
  | Fin a, NInf | NInf, Fin a =>
      if Rlt_dec 0 a then NInf else if Rlt_dec a 0 then PInf else NaN
  | PInf, PInf | NInf, NInf => PInf
  | PInf, NInf | NInf, PInf => NInf
  end.

Definition dot (u v : vec) : scalar := vsum (zip_with fmul u v).

Definition linear_layers : Layers := {|
  dec0 := λ y h, map (λ b, h !!! b) (seq 0 (length y));
  dec1 := λ z h1, h1;
  dec0_nohx := λ y, Raise TypeError;
  txt_att := λ q c m, ([], zeros (size1 c) 1);
  img_att := λ q c m, ([], zeros (size1 c) 1);
  fusion := λ a b, a;
  hid2out := λ h2, map (map ftanh) h2;
  out2prob := λ W x, map (λ r, map (dot r) W) x;
  ff_dec_init := λ x, map (map ftanh) x;
  do_out := λ seed x, if Nat.even seed then x else map (map (λ _, Fin 0)) x
|}.

(** A context whose single textual position is padding. *)
Definition void_ctx_dict : gmap string (tensor3 * tensor2) :=
  <["txt" := (void_ctx, void_mask)]> (<["image" := demo_stream]> ∅).

(** The small configuration with output dropout at rate 1/2. *)
Definition dropout_decoder : decoder :=
  Decoder 1 1 demo_sizes 2 false "zero" "mlp" "ctx" "tanh" (1 # 2) 0 1
    false true.

(** Generator states of a second run: as [demo_seeds] at step 0, another
    state afterwards. *)
Definition alt_seeds : nat → nat := λ t, match t with 0 => 0 | _ => 7 end.


(** ** The computation monad *)

Lemma bind_raise {A B} (f : A → M B) (m : M A) l e :
  m = (l, Raise e) → m ≫= f = (l, Raise e).
Proof. by intros ->. Qed.

Lemma bind_ok {A B} (f : A → M B) (m : M A) l1 a l2 r :
  m = (l1, Ok a) → f a = (l2, r) → m ≫= f = (l1 ++ l2, r).
Proof. intros -> Hf. unfold mbind, M_bind. by rewrite Hf. Qed.

Lemma bind_ret {A B} (f : A → M B) (a : A) : mret a ≫= f = f a.
Proof. unfold mbind, M_bind, mret, M_ret. by destruct (f a). Qed.

Lemma bind_inv_ok {A B} (f : A → M B) (m : M A) log b :
  m ≫= f = (log, Ok b) →
  ∃ l1 a l2, m = (l1, Ok a) ∧ f a = (l2, Ok b) ∧ log = l1 ++ l2.
Proof.
  destruct m as [l1 [a|e]]; unfold mbind, M_bind.
  - destruct (f a) as [l2 r] eqn:E. intros [= <- ->]. by exists l1, a, l2.
  - intros [=].
Qed.

Section Step.
Context `{Layers}.

Lemma f_next_unfold seed d σ (ctx_dict : gmap string (tensor3 * tensor2)) y h txt img :
  wf_decoder d →
  ctx_dict !! "txt" = Some txt →
  ctx_dict !! "image" = Some img →
  let h1 := dec0 y h in
  let txt_z_t := (txt_att (unsqueeze0 h1) txt.1 txt.2).2 in
  let img_z_t := (img_att (unsqueeze0 h1) img.1 img.2).2 in
  let final_z_t := fusion txt_z_t img_z_t in
  let h2 := dec1 final_z_t h1 in
  let bottleneck := hid2out h2 in
  let dropped := positive_rate (dropout_out d) in
  let logit := if dropped then do_out seed bottleneck else bottleneck in
  let W := σ !!! out2prob_weight d in
  let log_p := neg_log_softmax (out2prob W logit) in
  f_next seed d σ ctx_dict y (Some h) =
    ([Enter_f_next y (Some h);
      Call_dec0 y (Some h);
      Call_txt_att (unsqueeze0 h1) txt.1 txt.2;
      Call_img_att (unsqueeze0 h1) img.1 img.2;
      Call_fusion txt_z_t img_z_t;
      Call_dec1 final_z_t h1;
      Call_hid2out h2]
     ++ (if dropped then [Call_do_out seed bottleneck] else [])
     ++ [Call_out2prob W logit; Leave_f_next log_p h2],
     Ok (log_p, h2)).
Proof.
  intros [_ Hdo] Htxt Himg. cbv zeta.
  unfold f_next, f_next_body, dict_get. rewrite Htxt, Himg.
  unfold call_dec0, call_txt_att, call_img_att, call_fusion, call_dec1,
    call_hid2out, call_out2prob, call_do_out.
  rewrite Hdo. cbn.
  destruct (txt_att _ _ _) as [ta tz].
  destruct (img_att _ _ _) as [ia iz].
  destruct (positive_rate (dropout_out d)); reflexivity.
Qed.

End Step.

(** ** Finite arithmetic *)

Lemma is_fin_inv x : is_fin x → ∃ r, x = Fin r.
Proof. destruct x; simpl; try done. eauto. Qed.

Lemma Forall_fin_map (v : vec) : Forall is_fin v → ∃ rs, v = map Fin rs.
Proof.
  induction 1 as [|x v Hx _ [rs ->]].
  - by exists [].
  - apply is_fin_inv in Hx as [r ->]. by exists (r :: rs).
Qed.

Lemma fadd_fin_inv x y : is_fin (fadd x y) → is_fin x ∧ is_fin y.
Proof. by destruct x, y. Qed.

Lemma fneg_fin_inv x : is_fin (fneg x) → is_fin x.
Proof. by destruct x. Qed.

Lemma foldl_fadd_fin a (rs : list R) :
  foldl fadd (Fin a) (map Fin rs) = Fin (a + Rsum rs).
Proof.
  revert a. induction rs as [|r rs IH]; intros a; simpl.
  - f_equal. lra.
  - rewrite IH. f_equal. lra.
Qed.

Lemma vsum_fin (rs : list R) : vsum (map Fin rs) = Fin (Rsum rs).
Proof. unfold vsum. rewrite foldl_fadd_fin. f_equal. lra. Qed.

Lemma Rsum_exp_pos (rs : list R) : rs ≠ [] → (0 < Rsum (map exp rs))%R.
Proof.
  destruct rs as [|r rs]; [done|intros _]. simpl.
  assert (0 <= Rsum (map exp rs))%R.
  { induction rs as [|r' rs IH]; simpl; [lra|]. pose proof (exp_pos r'). lra. }
  pose proof (exp_pos r). lra.
Qed.

Lemma Rsum_exp_ge (rs : list R) r : r ∈ rs → (exp r <= Rsum (map exp rs))%R.
Proof.
  induction 1 as [r rs|r r' rs _ IH]; simpl.
  - assert (0 <= Rsum (map exp rs))%R; [|lra].
    clear. induction rs as [|r' rs IH]; simpl; [lra|].
    pose proof (exp_pos r'). lra.
  - pose proof (exp_pos r'). lra.
Qed.

Lemma Rsum_scale (c : R) (rs : list R) :
  Rsum (map (λ r, r * c)%R rs) = (Rsum rs * c)%R.
Proof. induction rs as [|r rs IH]; simpl; [lra|]. rewrite IH. lra. Qed.

(** The normaliser of a finite row. *)
Lemma log_softmax_fin (rs : list R) :
  rs ≠ [] →
  map fneg (log_softmax_row (map Fin rs)) =
    map (λ r, Fin (ln (Rsum (map exp rs)) - r)) rs.
Proof.
  intros Hne. unfold log_softmax_row.
  assert (map fexp (map Fin rs) = map Fin (map exp rs)) as ->.
  { by rewrite !map_map. }
  rewrite vsum_fin. pose proof (Rsum_exp_pos rs Hne) as Hpos.
  unfold flog. destruct (Rlt_dec _ _) as [_|?]; [|done].
  rewrite !map_map. apply map_ext. intros r. simpl. f_equal. lra.
Qed.

Lemma log_softmax_row_fin_inv (x : vec) :
  Forall is_fin (map fneg (log_softmax_row x)) → Forall is_fin x.
Proof.
  unfold log_softmax_row. rewrite map_map, Forall_map.
  intros Hx. eapply Forall_impl; [exact Hx|]. intros e He. simpl in He.
  apply fneg_fin_inv in He. unfold fsub in He.
  by apply fadd_fin_inv in He as [? _].
Qed.

Lemma neg_log_softmax_row_distribution (x : vec) :
  x ≠ [] →
  Forall is_fin (map fneg (log_softmax_row x)) →
  Forall nonneg (map fneg (log_softmax_row x)) ∧
  prob_mass (map fneg (log_softmax_row x)) = Fin 1.
Proof.
  intros Hne Hfin.
  destruct (Forall_fin_map x (log_softmax_row_fin_inv x Hfin)) as [rs ->].
  assert (rs ≠ []) as Hrs by (by destruct rs).
  rewrite (log_softmax_fin rs Hrs).
  pose proof (Rsum_exp_pos rs Hrs) as Hpos.
  set (S := Rsum (map exp rs)) in *.
  split.
  - rewrite Forall_map. apply Forall_forall. intros r Hr.
    exists (ln S - r)%R. split; [done|].
    pose proof (Rsum_exp_ge rs r Hr) as Hle. fold S in Hle.
    pose proof (exp_pos r) as Hexp.
    assert (ln (exp r) <= ln S)%R as Hln.
    { destruct Hle as [Hlt| ->]; [|lra]. left. by apply ln_increasing. }
    rewrite ln_exp in Hln. lra.
  - unfold prob_mass. rewrite map_map. simpl.
    assert (map (λ r, Fin (exp (- (ln S - r)))) rs
            = map Fin (map (λ r, r * / S)%R (map exp rs))) as ->.
    { rewrite !map_map. apply map_ext. intros r. f_equal.
      replace (- (ln S - r))%R with (r + - ln S)%R by lra.
      by rewrite exp_plus, exp_Ropp, exp_ln. }
    rewrite vsum_fin, Rsum_scale. fold S. f_equal.
    apply Rinv_r. lra.
Qed.

Tactic Notation "inv_bind" hyp(H) "as" simple_intropattern(a) :=
  let l1 := fresh "l" in let l2 := fresh "l" in
  let E := fresh "E" in let El := fresh "El" in
  apply bind_inv_ok in H as (l1 & a & l2 & E & H & El).

Section StepResult.
Context `{Layers}.

(** Whatever the inputs, a returning [f_next] has called the vocabulary
    projection once, with the stored weight, and returns the negated
    log-softmax of the scores this call produced. *)
Lemma f_next_scores seed d σ ctx_dict y h log log_p h2 :
  f_next seed d σ ctx_dict y h = (log, Ok (log_p, h2)) →
  ∃ logit,
    out2prob_calls log = [(σ !!! out2prob_weight d, logit)] ∧
    log_p = neg_log_softmax (out2prob (σ !!! out2prob_weight d) logit).
Proof.
  unfold f_next, f_next_body, dict_get, call_dec0, call_txt_att, call_img_att,
    call_fusion, call_dec1, call_hid2out, call_out2prob, call_do_out, lift.
  intros Hrun.
  destruct (ctx_dict !! "txt") as [txt|];
    [|destruct h; [|destruct (dec0_nohx y)]; by cbn in Hrun].
  destruct (ctx_dict !! "image") as [img|]; cycle 1.
  { destruct h; [|destruct (dec0_nohx y)]; cbn in Hrun;
      try destruct (txt_att _ _ _); by cbn in Hrun. }
  destruct h as [h|]; [|destruct (dec0_nohx y) as [h1|e]; [|by cbn in Hrun]];
    cbn in Hrun;
    destruct (txt_att _ _ _) as [ta tz]; destruct (img_att _ _ _) as [ia iz];
    cbn in Hrun;
    (destruct (positive_rate (dropout_out d));
     [destruct (has_do_out d); [|by cbn in Hrun]|]);
    cbn in Hrun; injection Hrun as <- <- _; by eexists.
Qed.

End StepResult.

Lemma out2prob_calls_mono (l1 l2 : list event) :
  l1 ⊆ l2 → out2prob_calls l1 ⊆ out2prob_calls l2.
Proof.
  intros Hsub c Hc. unfold out2prob_calls in *.
  apply list_elem_of_omap in Hc as (e & He & Hc).
  apply list_elem_of_omap. exists e. split; [by apply Hsub|done].
Qed.

Lemma log_softmax_row_fin (x : vec) :
  x ≠ [] → Forall is_fin x → Forall is_fin (map fneg (log_softmax_row x)).
Proof.
  intros Hne Hx. destruct (Forall_fin_map x Hx) as [rs ->].
  rewrite (log_softmax_fin rs) by (by destruct rs).
  rewrite Forall_map. by apply Forall_true.
Qed.

(** ** Index tensors *)

Lemma index_id_ok {A} (xs : list A) (i : Z) :
  (0 ≤ i < Z.of_nat (length xs))%Z →
  ∃ x, index_id xs i = ([], Ok x) ∧ xs !! Z.to_nat i = Some x.
Proof.
  intros [Hlo Hhi]. unfold index_id, index.
  destruct (decide (0 ≤ i)%Z) as [_|?]; [|done].
  destruct (lookup_lt_is_Some_2 xs (Z.to_nat i)) as [x Hx]; [lia|].
  exists x. by rewrite Hx.
Qed.

Lemma mapM_ok {A B} (f : A → M B) (P : A → B → Prop) (xs : list A) :
  Forall (λ x, ∃ y, f x = ([], Ok y) ∧ P x y) xs →
  ∃ ys, mapM_ f xs = ([], Ok ys) ∧
    Forall2 (λ x y, f x = ([], Ok y) ∧ P x y) xs ys.
Proof.
  induction 1 as [|x xs (y & Hy & HP) _ (ys & Hys & Hall)]; simpl.
  - exists []. split; [done|constructor].
  - exists (y :: ys). split; [|by constructor].
    rewrite (bind_ok _ _ [] y [] (Ok (y :: ys)) Hy); [done|].
    by rewrite (bind_ok _ _ [] ys [] (Ok (y :: ys)) Hys).
Qed.

Lemma emb_row_ok (W : mat) (ids : list Z) :
  Forall (λ i, (0 ≤ i < Z.of_nat (length W))%Z) ids →
  ∃ x, emb_row W ids = ([], Ok x) ∧ length x = length ids.
Proof.
  intros Hids.
  destruct (mapM_ok (index_id W) (λ _ _, True) ids) as (x & Hx & Hall).
  - eapply Forall_impl; [exact Hids|]. intros i Hi.
    destruct (index_id_ok W i Hi) as (r & Hr & _). eauto.
  - exists x. split; [done|]. symmetry. by eapply Forall2_length.
Qed.

Lemma emb_ok (W : mat) (y : list (list Z)) :
  valid_ids (length W) y →
  ∃ y_emb, emb W y = ([], Ok y_emb) ∧
    Forall2 (λ ids x, emb_row W ids = ([], Ok x) ∧ length x = length ids)
      y y_emb.
Proof.
  intros Hy. apply mapM_ok.
  eapply Forall_impl; [exact Hy|]. intros ids Hids.
  by apply emb_row_ok.
Qed.

Lemma gather_ok (log_p : mat) (idx : list Z) (V : nat) :
  length idx ≤ length log_p →
  Forall (λ r, length r = V) log_p →
  Forall (λ i, (0 ≤ i < Z.of_nat V)%Z) idx →
  ∃ picked, gather log_p idx = ([], Ok picked).
Proof.
  revert log_p. induction idx as [|i idx IH]; intros log_p Hlen Hw Hidx.
  - exists []. reflexivity.
  - destruct log_p as [|row log_p]; simpl in Hlen; [lia|].
    apply Forall_cons in Hw as [Hrow Hw]. apply Forall_cons in Hidx as [Hi Hidx].
    destruct (index_id_ok row i) as (x & Hx & _); [by rewrite Hrow|].
    destruct (IH log_p) as (xs & Hxs); [lia|done|done|].
    exists (x :: xs). simpl.
    rewrite (bind_ok _ _ [] x [] (Ok (x :: xs)) Hx); [done|].
    by rewrite (bind_ok _ _ [] xs [] (Ok (x :: xs)) Hxs).
Qed.

(** What a successful lookup and a successful selection hold. *)

Lemma index_id_inv {A} (xs : list A) (i : Z) l x :
  index_id xs i = (l, Ok x) → (0 ≤ i)%Z ∧ xs !! Z.to_nat i = Some x.
Proof.
  unfold index_id, index.
  destruct (decide (0 ≤ i)%Z) as [Hi|?]; [|done].
  destruct (xs !! Z.to_nat i) as [x'|]; [|done].
  by intros [= _ ->].
Qed.

Lemma emb_row_rows (W : mat) (ids : list Z) l (x : mat) :
  emb_row W ids = (l, Ok x) → rows_of W ids x.
Proof.
  unfold emb_row, rows_of. revert l x.
  induction ids as [|i ids IH]; intros l x Hrun; simpl in Hrun.
  - injection Hrun as _ <-. constructor.
  - inv_bind Hrun as row. inv_bind Hrun as rows. injection Hrun as _ <-.
    constructor; [by eapply index_id_inv|by eapply IH].
Qed.

Lemma gather_entries (log_p : mat) (idx : list Z) l (picked : vec) :
  gather log_p idx = (l, Ok picked) → entries_at log_p idx picked.
Proof.
  unfold entries_at. revert log_p l picked.
  induction idx as [|i idx IH]; intros log_p l picked Hrun; simpl in Hrun.
  - injection Hrun as _ <-. split; [done|]. intros b id Hb. done.
  - destruct log_p as [|row log_p]; [done|].
    inv_bind Hrun as x. inv_bind Hrun as xs. injection Hrun as _ <-.
    destruct (IH _ _ _ E0) as [Hlen Hall].
    split; [simpl; by rewrite Hlen|].
    intros [|b] id Hb; simpl in Hb.
    + injection Hb as <-. exists row, x. simpl.
      destruct (index_id_inv _ _ _ _ E) as [? ?]. done.
    + simpl. by apply Hall.
Qed.

Lemma rows_of_fun (W : mat) (ids : list Z) (x x' : mat) :
  rows_of W ids x → rows_of W ids x' → x' = x.
Proof.
  unfold rows_of. intros Hx. revert x'.
  induction Hx as [|i row ids x [_ Hrow] _ IH]; intros x' Hx'.
  - by inversion Hx'.
  - inversion Hx' as [|? row' ? x'' [_ Hrow'] Hrest]; subst.
    f_equal; [congruence|by apply IH].
Qed.

Lemma entries_at_fun (log_p : mat) (ids : list Z) (p p' : vec) :
  entries_at log_p ids p → entries_at log_p ids p' → p' = p.
Proof.
  intros [Hlen Hall] [Hlen' Hall']. apply list_eq. intros b.
  destruct (ids !! b) as [id|] eqn:Hb.
  - destruct (Hall b id Hb) as (row & e & Hrow & _ & He & ->).
    destruct (Hall' b id Hb) as (row' & e' & Hrow' & _ & He' & ->).
    congruence.
  - apply lookup_ge_None in Hb.
    rewrite !lookup_ge_None_2; [done|lia|lia].
Qed.

Lemma entries_at_elems (log_p : mat) (ids : list Z) (picked : vec) :
  entries_at log_p ids picked →
  Forall (λ e, ∃ row : vec, row ∈ log_p ∧ e ∈ row) picked.
Proof.
  intros [Hlen Hall]. apply Forall_lookup. intros b e He.
  destruct (lookup_lt_is_Some_2 ids b) as [id Hb].
  { rewrite <- Hlen. by eapply lookup_lt_Some. }
  destruct (Hall b id Hb) as (row & e' & Hrow & _ & He' & Hp).
  assert (e' = e) as -> by congruence.
  exists row. split; by eapply list_elem_of_lookup_2.
Qed.

(** ** One teacher-forced step *)

Section Forward.
Context `{Layers} `{!LayerShapes}.

Lemma neg_log_softmax_shape (scores : mat) (V : nat) :
  Forall (λ r, length r = V) scores →
  length (neg_log_softmax scores) = length scores ∧
  Forall (λ r, length r = V) (neg_log_softmax scores).
Proof.
  intros Hw. unfold neg_log_softmax. split; [by rewrite length_map|].
  rewrite Forall_map. eapply Forall_impl; [exact Hw|].
  intros r Hr. simpl. unfold log_softmax_row. by rewrite !length_map.
Qed.

Lemma f_next_run seed d σ (ctx_dict : gmap string (tensor3 * tensor2)) y h txt img :
  wf_decoder d →
  ctx_dict !! "txt" = Some txt →
  ctx_dict !! "image" = Some img →
  ∃ log log_p h2,
    f_next seed d σ ctx_dict y (Some h) = (log, Ok (log_p, h2)) ∧
    f_next_inputs log = [(y, Some h)] ∧
    f_next_outputs log = [(log_p, h2)] ∧
    loss_terms log = [] ∧
    length log_p = length y ∧
    Forall (λ r, length r = length (σ !!! out2prob_weight d)) log_p.
Proof.
  intros Hwf Htxt Himg.
  pose proof (f_next_unfold seed d σ ctx_dict y h txt img Hwf Htxt Himg) as Hrun.
  cbv zeta in Hrun. eexists _, _, _. split; [exact Hrun|].
  repeat split.
  - by destruct (positive_rate (dropout_out d)).
  - by destruct (positive_rate (dropout_out d)).
  - by destruct (positive_rate (dropout_out d)).
  - match goal with |- length (neg_log_softmax ?s) = _ =>
      destruct (neg_log_softmax_shape s _ (out2prob_width _ _)) as [-> _] end.
    rewrite out2prob_batch.
    destruct (positive_rate (dropout_out d));
      by rewrite ?do_out_batch, hid2out_batch, dec1_batch, dec0_batch.
  - match goal with |- Forall _ (neg_log_softmax ?s) =>
      by destruct (neg_log_softmax_shape s _ (out2prob_width _ _)) as [_ ?] end.
Qed.

Lemma forward_step_run seeds d σ (ctx_dict : gmap string (tensor3 * tensor2))
    (y_emb : list mat) (y : list (list Z)) t loss (h : mat) txt img
    (x_t : mat) ids y_next :
  wf_decoder d →
  ctx_dict !! "txt" = Some txt →
  ctx_dict !! "image" = Some img →
  y_emb !! t = Some x_t →
  y !! t = Some ids →
  length x_t = length ids →
  y !! (t + 1) = Some y_next →
  length y_next ≤ length ids →
  Forall (λ i, (0 ≤ i < Z.of_nat (length (σ !!! out2prob_weight d)))%Z) y_next →
  ∃ step_log log_p h2 picked,
    forward_step seeds d σ ctx_dict y_emb y t (loss, Some h)
      = (step_log ++ [Add_loss y_next (vsum picked)],
         Ok (fadd loss (vsum picked), Some h2)) ∧
    f_next (seeds t) d σ ctx_dict x_t (Some h) = (step_log, Ok (log_p, h2)) ∧
    gather log_p y_next = ([], Ok picked) ∧
    f_next_inputs step_log = [(x_t, Some h)] ∧
    f_next_outputs step_log = [(log_p, h2)] ∧
    loss_terms step_log = [].
Proof.
  intros Hwf Htxt Himg Hx Hids Hlen Hnext Hb Hv.
  destruct (f_next_run (seeds t) d σ ctx_dict x_t h txt img Hwf Htxt Himg)
    as (log & log_p & h2 & Hrun & Hin & Hout & Hloss & Hrows & Hwidth).
  destruct (gather_ok log_p y_next _ ltac:(lia) Hwidth Hv) as [picked Hpick].
  exists log, log_p, h2, picked.
  split; [|done].
  unfold forward_step. cbv beta iota. unfold index.
  rewrite Hx, Hnext, bind_ret.
  rewrite (bind_ok _ _ log (log_p, h2)
             [Add_loss y_next (vsum picked)]
             (Ok (fadd loss (vsum picked), Some h2)) Hrun); [done|].
  rewrite bind_ret.
  by rewrite (bind_ok _ _ [] picked
             [Add_loss y_next (vsum picked)]
             (Ok (fadd loss (vsum picked), Some h2)) Hpick).
Qed.

Lemma forward_loop seeds d σ (ctx_dict : gmap string (tensor3 * tensor2))
    (y_emb : list mat) (y : list (list Z)) txt img B n :
  wf_decoder d →
  ctx_dict !! "txt" = Some txt →
  ctx_dict !! "image" = Some img →
  Forall2 (λ ids x, emb_row (σ !!! emb_weight d) ids = ([], Ok x)
                    ∧ length x = length ids) y y_emb →
  rect B y →
  valid_ids (length (σ !!! out2prob_weight d)) y →
  ∀ a loss (h : mat), a + n < length y →
  ∃ log loss' (h' : mat),
    for_each (seq a n) (forward_step seeds d σ ctx_dict y_emb y) (loss, Some h)
      = (log, Ok (loss', Some h')) ∧
    length (f_next_inputs log) = n ∧
    length (loss_terms log) = n ∧
    hidden_threaded (Some h) log ∧
    loss' = foldl fadd loss (map snd (loss_terms log)) ∧
    ∀ k, k < n →
      teacher_forced_step seeds d σ ctx_dict (σ !!! emb_weight d) y log a k.
Proof.
  intros Hwf Htxt Himg Hemb Hrect Hvalid.
  induction n as [|n IH]; intros a loss h Hlen.
  - exists [], loss, h. repeat split; try done. intros k Hk. lia.
  - destruct (lookup_lt_is_Some_2 y a) as [ids Hids]; [lia|].
    destruct (lookup_lt_is_Some_2 y (a + 1)) as [y_next Hnext]; [lia|].
    destruct (Forall2_lookup_l _ _ _ _ _ Hemb Hids) as (x_t & Hx & Hrow & Hxl).
    assert (length ids = B) as HB.
    { by apply (Forall_lookup_1 _ _ _ _ Hrect Hids). }
    assert (length y_next = B) as HB'.
    { by apply (Forall_lookup_1 _ _ _ _ Hrect Hnext). }
    pose proof (Forall_lookup_1 _ _ _ _ Hvalid Hnext) as Hv. simpl in Hv.
    destruct (forward_step_run seeds d σ ctx_dict y_emb y a loss h txt img
                x_t ids y_next Hwf Htxt Himg Hx Hids Hxl Hnext ltac:(lia) Hv)
      as (slog & log_p & h2 & picked & Hstep & Hrun & Hpick & Hin & Hout & Hl).
    destruct (IH (S a) (fadd loss (vsum picked)) h2 ltac:(lia))
      as (log & loss' & h' & Hloop & Hn1 & Hn2 & Hth & Hloss & Hall).
    set (term := Add_loss y_next (vsum picked)) in *.
    exists ((slog ++ [term]) ++ log), loss', h'.
    assert (f_next_inputs ((slog ++ [term]) ++ log)
            = (x_t, Some h) :: f_next_inputs log) as Ein.
    { unfold f_next_inputs in *. by rewrite !omap_app, Hin. }
    assert (f_next_outputs ((slog ++ [term]) ++ log)
            = (log_p, h2) :: f_next_outputs log) as Eout.
    { unfold f_next_outputs in *. by rewrite !omap_app, Hout. }
    assert (loss_terms ((slog ++ [term]) ++ log)
            = (y_next, vsum picked) :: loss_terms log) as Eterms.
    { unfold loss_terms in *. by rewrite !omap_app, Hl. }
    split; [|split; [|split; [|split; [|split]]]].
    + exact (bind_ok _ _ _ _ _ _ Hstep Hloop).
    + rewrite Ein. simpl. by rewrite Hn1.
    + rewrite Eterms. simpl. by rewrite Hn2.
    + unfold hidden_threaded in *. rewrite Ein, Eout. simpl.
      f_equal. exact Hth.
    + rewrite Eterms. simpl. exact Hloss.
    + intros [|k] Hk.
      * exists ids, y_next, x_t, h, log_p, h2, picked, slog.
        rewrite Ein, Eout, Eterms, Nat.add_0_r.
        split; [done|]. split; [done|].
        split; [by eapply emb_row_rows|].
        split; [done|]. split; [done|]. split; [done|].
        split; [by eapply gather_entries|]. split; [done|].
        intros e He. apply elem_of_app. left. apply elem_of_app. by left.
      * destruct (Hall k ltac:(lia))
          as (ids' & yn' & x' & h_t & lp' & h2' & pk' & sl' & F1 & F2 & F3
              & F4 & F5 & F6 & F7 & F8 & F9).
        exists ids', yn', x', h_t, lp', h2', pk', sl'.
        rewrite Ein, Eout, Eterms. simpl.
        replace (a + S k) with (S a + k) by lia.
        split; [done|]. split; [done|]. split; [done|]. split; [done|].
        split; [done|]. split; [done|]. split; [done|]. split; [done|].
        intros e He. apply elem_of_app. right. by apply F9.
Qed.

Lemma f_init_run d (txt_ctx : tensor3) (txt_ctx_mask : tensor2) :
  wf_decoder d →
  dec_init d = "zero" ∨ dec_init d = "mean_ctx" →
  ∃ log (h0 : mat),
    f_init d txt_ctx txt_ctx_mask = (log, Ok (Some h0)) ∧
    f_next_inputs log = [] ∧ f_next_outputs log = [] ∧ loss_terms log = [].
Proof.
  intros [Hff _] Hrec. unfold f_init.
  destruct (decide (dec_init d = "zero")) as [Hz|Hz].
  - by eexists [], _.
  - destruct Hrec as [?|Hm]; [done|].
    destruct (decide (dec_init d = "mean_ctx")) as [_|?]; [|done].
    rewrite Hff, bool_decide_eq_true_2 by done.
    by eexists [_], _.
Qed.

(** The run of [forward] on a well-formed call. *)
Lemma forward_run seeds d σ (ctx_dict : gmap string (tensor3 * tensor2))
    (y : list (list Z)) txt img B :
  wf_decoder d →
  dec_init d = "zero" ∨ dec_init d = "mean_ctx" →
  ctx_dict !! "txt" = Some txt →
  ctx_dict !! "image" = Some img →
  valid_ids (length (σ !!! emb_weight d)) y →
  valid_ids (length (σ !!! out2prob_weight d)) y →
  rect B y →
  1 ≤ length y →
  ∃ log loss init_log (h0 : mat),
    forward seeds d σ ctx_dict y = (log, Ok loss) ∧
    f_init d txt.1 txt.2 = (init_log, Ok (Some h0)) ∧
    length (f_next_inputs log) = length y - 1 ∧
    length (loss_terms log) = length y - 1 ∧
    hidden_threaded (Some h0) log ∧
    loss = foldl fadd (Fin 0) (map snd (loss_terms log)) ∧
    ∀ t, t + 1 < length y →
      teacher_forced_step seeds d σ ctx_dict (σ !!! emb_weight d) y log 0 t.
Proof.
  intros Hwf Hrec Htxt Himg Hv1 Hv2 Hrect Hlen.
  destruct (emb_ok _ _ Hv1) as (y_emb & Hemb & Hall).
  destruct (f_init_run d txt.1 txt.2 Hwf Hrec)
    as (init_log & h0 & Hinit & Hi1 & Hi2 & Hi3).
  pose proof (Forall2_length _ _ _ Hall) as Hlen_emb.
  destruct (forward_loop seeds d σ ctx_dict y_emb y txt img B (length y - 1)
              Hwf Htxt Himg Hall Hrect Hv2 0 (Fin 0) h0 ltac:(lia))
    as (log & loss & h' & Hloop & Hn1 & Hn2 & Hth & Hloss & Hsteps).
  exists (init_log ++ log), loss, init_log, h0.
  assert (f_next_inputs (init_log ++ log) = f_next_inputs log) as Ein.
  { unfold f_next_inputs in *. by rewrite omap_app, Hi1. }
  assert (f_next_outputs (init_log ++ log) = f_next_outputs log) as Eout.
  { unfold f_next_outputs in *. by rewrite omap_app, Hi2. }
  assert (loss_terms (init_log ++ log) = loss_terms log) as Eterms.
  { unfold loss_terms in *. by rewrite omap_app, Hi3. }
  split; [|split; [done|]].
  - unfold forward, dict_get. rewrite Htxt.
    rewrite (bind_ok _ _ [] y_emb (init_log ++ log) (Ok loss) Hemb); [done|].
    rewrite bind_ret.
    eapply (bind_ok _ _ init_log (Some h0) log (Ok loss) Hinit).
    unfold range. rewrite <- Hlen_emb.
    replace (Z.to_nat (Z.of_nat (length y) - 1)) with (length y - 1) by lia.
    rewrite (bind_ok _ _ log (loss, Some h') [] (Ok loss) Hloop); [|done].
    by rewrite app_nil_r.
  - unfold hidden_threaded in *. rewrite Ein, Eterms, Eout.
    split; [done|]. split; [done|]. split; [done|]. split; [done|].
    intros t Ht.
    destruct (Hsteps t ltac:(lia))
      as (ids & yn & x & h & lp & h2 & pk & sl & F1 & F2 & F3 & F4 & F5 & F6
          & F7 & F8 & F9).
    exists ids, yn, x, h, lp, h2, pk, sl. rewrite Ein, Eout, Eterms.
    split; [done|]. split; [done|]. split; [done|]. split; [done|].
    split; [done|]. split; [done|]. split; [done|]. split; [done|].
    intros e He. apply elem_of_app. right. by apply F9.
Qed.

End Forward.

(** ** The small configuration is what the constructor builds *)

#[global] Instance zero_layers_shapes : @LayerShapes zero_layers.
Proof.
  split; simpl; intros.
  - unfold zeros. by rewrite length_replicate.
  - unfold zeros. by rewrite length_replicate.
  - done.
  - done.
  - by rewrite length_map.
  - rewrite Forall_map. apply Forall_true. intros r. simpl.
    by rewrite length_map.
Qed.

Lemma demo_constructed :
  __init__ demo_args demo_draws ∅ = Ok (demo_decoder, demo_store).
Proof. vm_compute. reflexivity. Qed.

Lemma demo_wf : wf_decoder demo_decoder.
Proof. split; reflexivity. Qed.

Lemma demo_valid_ids : valid_ids 2 demo_target.
Proof. repeat constructor; lia. Qed.

(** ** The step orchestrator *)

(** C2.  A call to [f_next] with a tensor hidden state [h] and a context
    dictionary holding both streams makes its calls in one fixed order:
    stage-1 cell on [(y, h)] giving [h1]; textual attention queried with
    [h1]; visual attention queried with [h1]; fusion of the two context
    vectors; stage-2 cell on [(fused, h1)] giving [h2]; bottleneck on [h2];
    dropout when its rate is positive; vocabulary projection.  It returns
    the negated log-softmax of the scores together with [h2]. *)
Theorem f_next_fixed_order `{Layers} seed d σ
    (ctx_dict : gmap string (tensor3 * tensor2)) y h txt img :
  wf_decoder d →
  ctx_dict !! "txt" = Some txt →
  ctx_dict !! "image" = Some img →
  let h1 := dec0 y h in
  let txt_z_t := (txt_att (unsqueeze0 h1) txt.1 txt.2).2 in
  let img_z_t := (img_att (unsqueeze0 h1) img.1 img.2).2 in
  let final_z_t := fusion txt_z_t img_z_t in
  let h2 := dec1 final_z_t h1 in
  let bottleneck := hid2out h2 in
  let dropped := positive_rate (dropout_out d) in
  let logit := if dropped then do_out seed bottleneck else bottleneck in
  let W := σ !!! out2prob_weight d in
  let log_p := neg_log_softmax (out2prob W logit) in
  f_next seed d σ ctx_dict y (Some h) =
    ([Enter_f_next y (Some h);
      Call_dec0 y (Some h);
      Call_txt_att (unsqueeze0 h1) txt.1 txt.2;
      Call_img_att (unsqueeze0 h1) img.1 img.2;
      Call_fusion txt_z_t img_z_t;
      Call_dec1 final_z_t h1;
      Call_hid2out h2]
     ++ (if dropped then [Call_do_out seed bottleneck] else [])
     ++ [Call_out2prob W logit; Leave_f_next log_p h2],
     Ok (log_p, h2)).
Proof. exact (f_next_unfold seed d σ ctx_dict y h txt img). Qed.

Lemma f_next_fixed_order_witness :
  ∃ log r, f_next (H := zero_layers) 0 demo_decoder demo_store demo_ctx_dict
             demo_y (Some demo_h) = (log, Ok r).
Proof.
  eexists _, _.
  exact (f_next_fixed_order (H := zero_layers) 0 demo_decoder demo_store
           demo_ctx_dict demo_y demo_h demo_stream demo_stream
           demo_wf eq_refl eq_refl).
Defined.

(** ** The constructor *)

Lemma init_mat_length m n f : length (init_mat m n f) = m.
Proof. unfold init_mat. by rewrite length_map, length_seq. Qed.

Lemma alloc_lookup (σ : store) (w : mat) :
  (alloc σ w).2 !!! (alloc σ w).1 = w ∧ σ !! (alloc σ w).1 = None.
Proof.
  unfold alloc. simpl. split.
  - by rewrite lookup_total_insert_eq.
  - apply not_elem_of_dom. apply is_fresh.
Qed.

Lemma new_dropout_ok (p : Q) :
  positive_rate p = true → Qle_bool p 1 = true → new_dropout p = Ok tt.
Proof.
  unfold positive_rate, new_dropout. intros Hpos Hle. rewrite Hle.
  destruct (Qle_bool p 0) eqn:E0; [done|].
  destruct (Qle_bool 0 p) eqn:E1; [done|].
  destruct (Qle_bool_iff p 0) as [_ H0]. destruct (Qle_bool_iff 0 p) as [_ H1].
  destruct (Qlt_le_dec 0 p) as [Hlt|Hge].
  - rewrite H1 in E1; [done|]. by apply Qlt_le_weak.
  - rewrite H0 in E0; done.
Qed.

Ltac dropout_checked :=
  match goal with
  | |- context [if positive_rate ?p then new_dropout ?p else Ok tt] =>
      destruct (if positive_rate p then new_dropout p else Ok tt)
        as [[]|?] eqn:?
  | H : context [if positive_rate ?p then new_dropout ?p else Ok tt] |- _ =>
      destruct (if positive_rate p then new_dropout p else Ok tt)
        as [[]|?] eqn:?
  end.

(** What a successful construction establishes. *)
Lemma init_spec a rnd (σ0 : store) d σ :
  __init__ a rnd σ0 = Ok (d, σ) →
  let w_emb := <[0 := zeros1 (arg_input_size a)]>
                 (init_mat (arg_n_vocab a) (arg_input_size a) (emb_entry rnd)) in
  let w_out := init_mat (arg_n_vocab a) (arg_input_size a)
                 (out2prob_entry rnd) in
  0 < arg_n_vocab a ∧
  is_Some (arg_ctx_size_dict a !! "txt") ∧
  is_Some (arg_ctx_size_dict a !! "img") ∧
  wf_decoder d ∧
  input_size d = arg_input_size a ∧
  n_vocab d = arg_n_vocab a ∧
  dec_init d = arg_dec_init a ∧
  tied_emb d = arg_tied_emb a ∧
  is_Some (σ !! emb_weight d) ∧
  σ !!! emb_weight d = w_emb ∧
  σ !!! out2prob_weight d = (if arg_tied_emb a then w_emb else w_out) ∧
  (arg_tied_emb a = false → emb_weight d ≠ out2prob_weight d).
Proof.
  unfold __init__, new_embedding. intros Hinit. cbv zeta.
  destruct (decide (0 < arg_n_vocab a)) as [Hv|]; [|done].
  set (w_emb := <[0:=_]> _) in *.
  destruct (alloc σ0 w_emb) as [l_emb σ1] eqn:E1.
  destruct (arg_ctx_size_dict a !! "txt") as [ct|] eqn:Et; [|done].
  destruct (arg_ctx_size_dict a !! "img") as [ci|] eqn:Ei; [|done].
  dropout_checked; [|done].
  set (w_out := init_mat _ _ (out2prob_entry rnd)) in *.
  destruct (alloc σ1 w_out) as [l_out σ2] eqn:E2.
  injection Hinit as <- <-. simpl.
  pose proof (alloc_lookup σ0 w_emb) as [H1 H1']. rewrite E1 in H1, H1'.
  pose proof (alloc_lookup σ1 w_out) as [H2 H2']. rewrite E2 in H2, H2'.
  simpl in *.
  assert (σ1 !! l_emb = Some w_emb) as Hl1.
  { unfold alloc in E1. injection E1 as <- <-. by rewrite lookup_insert_eq. }
  assert (l_emb ≠ l_out) as Hne by (intros ->; congruence).
  assert (σ2 !! l_emb = Some w_emb) as Hl2.
  { unfold alloc in E2. injection E2 as E2l <-.
    rewrite lookup_insert_ne; [done|]. by rewrite E2l. }
  assert (σ2 !!! l_emb = w_emb) as Ht.
  { by rewrite lookup_total_alt, Hl2. }
  repeat split; try done; try by eexists.
  all: by destruct (arg_tied_emb a).
Qed.

(** ** Tied embeddings *)

Lemma param_updates_dom (us : list (loc * (mat → mat))) (σ : store) l :
  is_Some (σ !! l) → is_Some (param_updates us σ !! l).
Proof.
  revert σ. induction us as [|[l' f] us IH]; intros σ Hl; [done|].
  simpl. apply IH. unfold param_update. simpl.
  destruct (decide (l' = l)) as [->|Hne].
  - rewrite lookup_alter_eq. destruct Hl as [w ->]. by eexists.
  - by rewrite lookup_alter_ne.
Qed.

(** C6.  With [tied_emb] the constructor leaves the projection's weight
    and the embedding table at one and the same address.  Hence, after
    any sequence of in-place parameter updates, every row of the one is
    the row of the other, and an update made through the embedding is
    what the projection reads. *)
Theorem tied_weights_aliased a rnd (σ0 : store) d σ :
  arg_tied_emb a = true →
  __init__ a rnd σ0 = Ok (d, σ) →
  out2prob_weight d = emb_weight d ∧
  (∀ us i, out2prob_weight_row d (param_updates us σ) i
           = emb_weight_row d (param_updates us σ) i) ∧
  (∀ us f,
     let σ' := param_updates us σ in
     param_update (emb_weight d) f σ' !!! out2prob_weight d
       = f (σ' !!! emb_weight d)).
Proof.
  intros Htied Hinit.
  assert (out2prob_weight d = emb_weight d) as Heq.
  { unfold __init__ in Hinit.
    destruct (new_embedding _ _ _); [|done].
    destruct (alloc σ0 a0) as [l_emb σ1].
    destruct (_ !! "txt"); [|done]. destruct (_ !! "img"); [|done].
    dropout_checked; [|done].
    destruct (alloc σ1 _) as [l_out σ2].
    injection Hinit as <- _. simpl. by rewrite Htied. }
  split; [done|]. split.
  - intros us i. unfold out2prob_weight_row, emb_weight_row. by rewrite Heq.
  - intros us f. cbv zeta. rewrite Heq. unfold param_update.
    pose proof (init_spec a rnd σ0 d σ Hinit) as Hspec. cbv zeta in Hspec.
    destruct Hspec as (_ & _ & _ & _ & _ & _ & _ & _ & Hdom & _).
    destruct (param_updates_dom us σ _ Hdom) as [w Hw].
    rewrite !lookup_total_alt, lookup_alter_eq, Hw. done.
Qed.

Lemma tied_weights_aliased_witness :
  ∃ d σ, __init__ tied_args demo_draws ∅ = Ok (d, σ) ∧
         out2prob_weight d = emb_weight d.
Proof.
  eexists _, _. split; [vm_compute; reflexivity|].
  eapply (tied_weights_aliased tied_args demo_draws ∅); [reflexivity|].
  vm_compute. reflexivity.
Defined.

(** ** Configuration values *)

(** The checks that [__init__] makes in this file are the only ones that
    fail in the model; the constructors of the sub-layers defined elsewhere
    are taken to accept their arguments. *)
Lemma init_total a rnd (σ0 : store) :
  0 < arg_n_vocab a →
  is_Some (arg_ctx_size_dict a !! "txt") →
  is_Some (arg_ctx_size_dict a !! "img") →
  Qle_bool (arg_dropout_out a) 1 = true →
  ∃ d σ, __init__ a rnd σ0 = Ok (d, σ).
Proof.
  intros Hv [ct Ht] [ci Hi] Hp. unfold __init__, new_embedding.
  destruct (decide (0 < arg_n_vocab a)) as [_|?]; [|done].
  rewrite Ht, Hi.
  destruct (alloc σ0 _) as [l_emb σ1].
  assert ((if positive_rate (arg_dropout_out a)
           then new_dropout (arg_dropout_out a) else Ok tt) = Ok tt) as ->.
  { destruct (positive_rate (arg_dropout_out a)) eqn:Hpos; [|done].
    by apply new_dropout_ok. }
  destruct (alloc σ1 _) as [l_out σ2].
  by eexists _, _.
Qed.

(** An unrecognised policy shows only when the initialiser is used, and
    then as a missing value, not as an exception. *)
Lemma f_init_unrecognised `{Layers} d txt_ctx txt_ctx_mask :
  dec_init d ≠ "zero" → dec_init d ≠ "mean_ctx" →
  f_init d txt_ctx txt_ctx_mask = ([], Ok None).
Proof.
  intros Hz Hm. unfold f_init.
  destruct (decide (dec_init d = "zero")); [done|].
  by destruct (decide (dec_init d = "mean_ctx")).
Qed.

(** C9, as the code has it.  The constructor does not validate
    [dec_init].  A value other than ["mean_ctx"], recognised or not, is
    handled exactly as ["zero"] is: construction raises the same error, or
    succeeds with the same store and the same module up to the stored
    string.  A module so constructed stores the value unchanged and has no
    initialiser projection. *)
Theorem init_accepts_any_dec_init a rnd (σ0 : store) v :
  v ≠ "mean_ctx" →
  __init__ (with_dec_init a v) rnd σ0
  = match __init__ (with_dec_init a "zero") rnd σ0 with
    | Ok (d, σ) => Ok (set_dec_init d v, σ)
    | Raise e => Raise e
    end ∧
  ∀ d σ, __init__ (with_dec_init a v) rnd σ0 = Ok (d, σ) →
         dec_init d = v ∧ has_ff_dec_init d = false.
Proof.
  intros Hv.
  assert (bool_decide (v = "mean_ctx") = false) as Hff
    by by apply bool_decide_eq_false.
  split.
  - unfold __init__, new_embedding, alloc. simpl.
    destruct (decide (0 < arg_n_vocab a)); [|done].
    destruct (arg_ctx_size_dict a !! "txt"); [|done].
    destruct (arg_ctx_size_dict a !! "img"); [|done].
    dropout_checked; [|done].
    unfold set_dec_init. simpl. by rewrite Hff.
  - intros d σ Hinit.
    pose proof (init_spec _ rnd σ0 d σ Hinit) as Hspec. cbv zeta in Hspec.
    destruct Hspec as (_ & _ & _ & [Hffd _] & _ & _ & Hdi & _).
    simpl in Hdi. split; [done|]. by rewrite Hffd, Hdi.
Qed.

Lemma init_accepts_any_dec_init_witness :
  __init__ (with_dec_init demo_args "last_ctx") demo_draws ∅
  = Ok (odd_decoder, demo_store).
Proof.
  rewrite (proj1 (init_accepts_any_dec_init demo_args demo_draws ∅
                    "last_ctx" ltac:(done))).
  vm_compute. reflexivity.
Defined.

(** C9 as stated fails: a policy that is neither ["zero"] nor
    ["mean_ctx"] is constructed without any error. *)
Lemma unknown_dec_init_is_constructed :
  arg_dec_init odd_args ≠ "zero" ∧ arg_dec_init odd_args ≠ "mean_ctx" ∧
  is_ok (__init__ odd_args demo_draws ∅).
Proof. split; [done|]. split; [done|]. vm_compute. exact I. Qed.

(** ** Degenerate targets *)

Lemma f_init_total `{Layers} d txt_ctx txt_ctx_mask :
  wf_decoder d →
  ∃ log h, f_init d txt_ctx txt_ctx_mask = (log, Ok h) ∧
    f_next_inputs log = [] ∧ f_next_outputs log = [] ∧ loss_terms log = [].
Proof.
  intros Hwf.
  destruct (decide (dec_init d = "zero")) as [Hz|Hz].
  - destruct (f_init_run d txt_ctx txt_ctx_mask Hwf (or_introl Hz))
      as (log & h0 & ? & ? & ? & ?). by exists log, (Some h0).
  - destruct (decide (dec_init d = "mean_ctx")) as [Hm|Hm].
    + destruct (f_init_run d txt_ctx txt_ctx_mask Hwf (or_intror Hm))
        as (log & h0 & ? & ? & ? & ?). by exists log, (Some h0).
    + exists [], None. by rewrite f_init_unrecognised.
Qed.

(** A target with at most one time step: the loop body never runs. *)
Lemma forward_short_target `{Layers} seeds d σ
    (ctx_dict : gmap string (tensor3 * tensor2)) (y : list (list Z)) txt :
  wf_decoder d →
  ctx_dict !! "txt" = Some txt →
  valid_ids (length (σ !!! emb_weight d)) y →
  length y ≤ 1 →
  ∃ log, forward seeds d σ ctx_dict y = (log, Ok (Fin 0)) ∧
         f_next_inputs log = [] ∧ loss_terms log = [].
Proof.
  intros Hwf Htxt Hv Hlen.
  destruct (emb_ok _ _ Hv) as (y_emb & Hemb & Hall).
  pose proof (Forall2_length _ _ _ Hall) as Hlen_emb.
  destruct (f_init_total d txt.1 txt.2 Hwf) as (log & h & Hinit & ? & ? & ?).
  exists log. split; [|done].
  unfold forward, dict_get. rewrite Htxt.
  rewrite (bind_ok _ _ [] y_emb log (Ok (Fin 0)) Hemb); [done|].
  rewrite bind_ret.
  rewrite (bind_ok _ _ log h [] (Ok (Fin 0)) Hinit); [by rewrite app_nil_r|].
  unfold range.
  replace (Z.to_nat (Z.of_nat (length y_emb) - 1)) with 0 by lia.
  reflexivity.
Qed.

(** C8, as the code has it.  A target of length 0 is not rejected: with a
    textual stream in the dictionary, [forward] never enters [f_next],
    adds no term, and returns the loss 0. *)
Theorem forward_empty_target `{Layers} seeds d σ
    (ctx_dict : gmap string (tensor3 * tensor2)) txt :
  wf_decoder d →
  ctx_dict !! "txt" = Some txt →
  ∃ log, forward seeds d σ ctx_dict [] = (log, Ok (Fin 0)) ∧
         f_next_inputs log = [] ∧ loss_terms log = [].
Proof.
  intros Hwf Htxt.
  apply (forward_short_target seeds d σ ctx_dict [] txt Hwf Htxt).
  - constructor.
  - simpl. lia.
Qed.

Lemma forward_empty_target_witness :
  ∃ log, forward (H := zero_layers) demo_seeds demo_decoder demo_store demo_ctx_dict []
         = (log, Ok (Fin 0)) ∧ f_next_inputs log = [] ∧ loss_terms log = [].
Proof.
  exact (forward_empty_target (H := zero_layers) demo_seeds demo_decoder demo_store
           demo_ctx_dict demo_stream demo_wf eq_refl).
Defined.

(** C8 as stated fails: the empty target is accepted and scored 0. *)
Lemma empty_target_not_rejected :
  forward (H := zero_layers) demo_seeds demo_decoder demo_store demo_ctx_dict []
  = ([], Ok (Fin 0)).
Proof. reflexivity. Qed.

(** ** The key of the visual modality *)







(** ** The padding id *)









(** ** Sums along the stream *)

Lemma fadd_0_r x : fadd x (Fin 0) = x.
Proof. destruct x; simpl; try done. f_equal. lra. Qed.

Lemma vadd_zeros_r (v : vec) : vadd v (zeros1 (length v)) = v.
Proof.
  induction v as [|x v IH]; [done|].
  unfold vadd, zeros1 in *. simpl. by rewrite fadd_0_r, IH.
Qed.

Lemma vadd_length (u v : vec) :
  length v = length u → length (vadd u v) = length u.
Proof. intros Hl. unfold vadd. rewrite length_zip_with. lia. Qed.

Lemma foldl_vadd_length (vs : list vec) (acc : vec) :
  Forall (λ v : vec, length v = length acc) vs →
  length (foldl vadd acc vs) = length acc.
Proof.
  revert acc. induction vs as [|v vs IH]; intros acc Hvs; [done|].
  apply Forall_cons in Hvs as [Hv Hvs]. simpl.
  pose proof (vadd_length acc v Hv) as Hl.
  rewrite IH; [done|].
  eapply Forall_impl; [exact Hvs|]. simpl. intros w Hw. congruence.
Qed.

Lemma foldl_madd_length (ms : list mat) (acc : mat) :
  Forall (λ m : mat, length m = length acc) ms →
  length (foldl madd acc ms) = length acc.
Proof.
  revert acc. induction ms as [|m ms IH]; intros acc Hms; [done|].
  apply Forall_cons in Hms as [Hm Hms]. simpl.
  assert (length (madd acc m) = length acc) as Hl.
  { unfold madd. rewrite length_zip_with. lia. }
  rewrite IH; [done|].
  eapply Forall_impl; [exact Hms|]. simpl. intros w Hw. congruence.
Qed.

Lemma foldl_vadd_lookup (vs : list vec) (acc : vec) c a :
  acc !! c = Some a →
  Forall (λ v : vec, c < length v) vs →
  foldl vadd acc vs !! c
  = Some (foldl fadd a (omap (λ v : vec, v !! c) vs)).
Proof.
  revert acc a. induction vs as [|v vs IH]; intros acc a Ha Hvs; [done|].
  apply Forall_cons in Hvs as [Hv Hvs].
  destruct (lookup_lt_is_Some_2 v c Hv) as [x Hx].
  simpl. rewrite Hx. apply IH; [|done].
  unfold vadd. by rewrite lookup_zip_with, Ha, Hx.
Qed.

Lemma foldl_madd_lookup (ms : list mat) (acc : mat) b (a : vec) :
  acc !! b = Some a →
  Forall (λ m : mat, b < length m) ms →
  foldl madd acc ms !! b
  = Some (foldl vadd a (omap (λ m : mat, m !! b) ms)).
Proof.
  revert acc a. induction ms as [|m ms IH]; intros acc a Ha Hms; [done|].
  apply Forall_cons in Hms as [Hm Hms].
  destruct (lookup_lt_is_Some_2 m b Hm) as [r Hr].
  simpl. rewrite Hr. apply IH; [|done].
  unfold madd. by rewrite lookup_zip_with, Ha, Hr.
Qed.

Lemma omap_lookup_all {A B} (f : A → option B) (l : list A) i :
  Forall (λ x, is_Some (f x)) l → omap f l !! i = l !! i ≫= f.
Proof.
  revert i. induction l as [|x l IH]; intros i Hl; [done|].
  apply Forall_cons in Hl as [[y Hy] Hl]. simpl. rewrite Hy.
  destruct i as [|i]; simpl; [done|]. by apply IH.
Qed.

Lemma omap_length_all {A B} (f : A → option B) (l : list A) :
  Forall (λ x, is_Some (f x)) l → length (omap f l) = length l.
Proof.
  induction 1 as [|x l [y Hy] _ IH]; [done|]. simpl. rewrite Hy. simpl.
  f_equal. exact IH.
Qed.

Lemma tdiv_lookup (a : mat) (d : vec) b :
  tdiv a (unsqueeze1 d) !! b
  = row ← a !! b; x ← d !! b; Some (map (λ e, fdiv e x) row).
Proof.
  unfold tdiv, unsqueeze1. rewrite lookup_zip_with, list_lookup_fmap.
  destruct (a !! b) as [row|]; [|done]. simpl.
  by destruct (d !! b).
Qed.

(** ** The [mean_ctx] initialiser *)

Lemma valid_one : valid (Fin 1) = true.
Proof. simpl. by destruct (Req_EM_T 1 1). Qed.

Lemma valid_zero : valid (Fin 0) = false.
Proof. simpl. destruct (Req_EM_T 0 1) as [E|_]; [lra|done]. Qed.

Lemma zeros1_length n : length (zeros1 n) = n.
Proof. apply length_replicate. Qed.

Lemma zeros_lookup m n b : b < m → zeros m n !! b = Some (zeros1 n).
Proof. intros Hb. unfold zeros. by apply lookup_replicate_2. Qed.

Lemma keep_valid_one (v : vec) (l : list (vec * scalar)) :
  omap keep_valid ((v, Fin 1) :: l) = v :: omap keep_valid l.
Proof.
  change (omap keep_valid ((v, Fin 1) :: l))
    with (match keep_valid (v, Fin 1) with
          | Some y => y :: omap keep_valid l
          | None => omap keep_valid l
          end).
  unfold keep_valid at 1. simpl fst. simpl snd. by rewrite valid_one.
Qed.

Lemma keep_valid_zero (v : vec) (l : list (vec * scalar)) :
  omap keep_valid ((v, Fin 0) :: l) = omap keep_valid l.
Proof.
  change (omap keep_valid ((v, Fin 0) :: l))
    with (match keep_valid (v, Fin 0) with
          | Some y => y :: omap keep_valid l
          | None => omap keep_valid l
          end).
  unfold keep_valid at 1. simpl fst. simpl snd. by rewrite valid_zero.
Qed.

(** Along one batch element: dropping the padded positions changes
    neither the sum (they hold zeros) nor the count. *)
Lemma col_masked C (vs : list vec) (xs : list scalar) :
  Forall2 (λ (v : vec) x, length v = C
                           ∧ (x = Fin 1 ∨ x = Fin 0 ∧ v = zeros1 C)) vs xs →
  ∀ (acc : vec) a, length acc = C →
    foldl vadd acc vs = foldl vadd acc (omap keep_valid (zip vs xs)) ∧
    foldl fadd (Fin a) xs
    = Fin (a + INR (length (omap keep_valid (zip vs xs)))).
Proof.
  induction 1 as [|v x vs xs [Hv Hx] _ IH]; intros acc a Hacc.
  - split; [done|]. simpl. f_equal. lra.
  - destruct Hx as [->|[-> ->]].
    + change (zip (v :: vs) (Fin 1 :: xs)) with ((v, Fin 1) :: zip vs xs).
      rewrite keep_valid_one. cbn [foldl length].
      change (fadd (Fin a) (Fin 1)) with (Fin (a + 1)).
      destruct (IH (vadd acc v) (a + 1)%R) as [-> ->].
      { rewrite vadd_length; congruence. }
      split; [done|]. f_equal. rewrite S_INR. lra.
    + change (zip (zeros1 C :: vs) (Fin 0 :: xs))
        with ((zeros1 C, Fin 0) :: zip vs xs).
      rewrite keep_valid_zero. cbn [foldl].
      change (fadd (Fin a) (Fin 0)) with (Fin (a + 0)).
      replace (vadd acc (zeros1 C)) with acc
        by (by rewrite <- Hacc, vadd_zeros_r).
      destruct (IH acc (a + 0)%R Hacc) as [-> ->].
      split; [done|]. f_equal. lra.
Qed.

Section MeanCtx.
Context `{Layers}.

Lemma f_init_mean d (txt_ctx : tensor3) (txt_ctx_mask : tensor2) :
  wf_decoder d →
  dec_init d = "mean_ctx" →
  let x := tdiv (sum0_3 txt_ctx) (unsqueeze1 (sum0_2 txt_ctx_mask)) in
  f_init d txt_ctx txt_ctx_mask
  = ([Call_ff_dec_init x], Ok (Some (ff_dec_init x))).
Proof.
  intros [Hff _] Hm. unfold f_init. rewrite Hff, Hm. reflexivity.
Qed.

End MeanCtx.

Lemma same_positions_cols (ctx : tensor3) (mask : tensor2) b :
  same_positions ctx mask →
  b < size1 ctx →
  Forall (λ m : mat, is_Some (m !! b)) (elems3 ctx) ∧
  Forall (λ r : vec, is_Some (r !! b)) (elems2 mask) ∧
  Forall (λ v : vec, length v = size2 ctx) (ctx_col ctx b) ∧
  length (ctx_col ctx b) = length (mask_col mask b).
Proof.
  intros ((Hl3 & Hw3) & (Hl2 & Hw2) & Hrows & Hcols) Hb.
  assert (Forall (λ m : mat, is_Some (m !! b)) (elems3 ctx)) as H3.
  { eapply Forall_impl; [exact Hw3|]. intros m [Hm _]. simpl in *.
    apply lookup_lt_is_Some_2. lia. }
  assert (Forall (λ r : vec, is_Some (r !! b)) (elems2 mask)) as H2.
  { eapply Forall_impl; [exact Hw2|]. intros r Hr. simpl in *.
    apply lookup_lt_is_Some_2. lia. }
  split; [done|]. split; [done|]. split.
  - unfold ctx_col. apply Forall_forall. intros v Hv.
    apply list_elem_of_omap in Hv as (m & Hm & Hmb).
    apply (proj1 (Forall_forall _ _) Hw3) in Hm as [_ Hrows'].
    apply list_elem_of_lookup_2 in Hmb.
    by apply (proj1 (Forall_forall _ _) Hrows').
  - unfold ctx_col, mask_col. rewrite !omap_length_all by done. lia.
Qed.

Lemma sums_rows (ctx : tensor3) (mask : tensor2) b :
  same_positions ctx mask →
  b < size1 ctx →
  sum0_3 ctx !! b = Some (foldl vadd (zeros1 (size2 ctx)) (ctx_col ctx b)) ∧
  sum0_2 mask !! b = Some (foldl fadd (Fin 0) (mask_col mask b)).
Proof.
  intros ((Hl3 & Hw3) & (Hl2 & Hw2) & Hrows & Hcols) Hb. split.
  - unfold sum0_3, ctx_col. apply foldl_madd_lookup.
    + by apply zeros_lookup.
    + eapply Forall_impl; [exact Hw3|]. intros m [Hm _]. simpl in *. lia.
  - unfold sum0_2, mask_col. apply foldl_vadd_lookup.
    + unfold zeros1. apply lookup_replicate_2. lia.
    + eapply Forall_impl; [exact Hw2|]. intros r Hr. simpl in *. lia.
Qed.

Lemma sums_lengths (ctx : tensor3) (mask : tensor2) :
  same_positions ctx mask →
  length (sum0_3 ctx) = size1 ctx ∧ length (sum0_2 mask) = size1 ctx.
Proof.
  intros ((Hl3 & Hw3) & (Hl2 & Hw2) & Hrows & Hcols). split.
  - unfold sum0_3. rewrite foldl_madd_length.
    + unfold zeros. apply length_replicate.
    + eapply Forall_impl; [exact Hw3|]. intros m [Hm _]. simpl.
      unfold zeros. by rewrite length_replicate.
  - unfold sum0_2. rewrite foldl_vadd_length.
    + rewrite zeros1_length. done.
    + eapply Forall_impl; [exact Hw2|]. intros r Hr. simpl.
      by rewrite zeros1_length.
Qed.

Lemma columns_related (ctx : tensor3) (mask : tensor2) b :
  same_positions ctx mask →
  binary_mask mask →
  padding_is_zero ctx mask →
  b < size1 ctx →
  Forall2 (λ (v : vec) x, length v = size2 ctx
             ∧ (x = Fin 1 ∨ x = Fin 0 ∧ v = zeros1 (size2 ctx)))
    (ctx_col ctx b) (mask_col mask b).
Proof.
  intros Hsame Hbin Hpad Hb.
  destruct (same_positions_cols ctx mask b Hsame Hb)
    as (H3 & H2 & Hwidth & Hlen).
  apply Forall2_same_length_lookup_2; [done|].
  intros s v x Hv Hx. unfold ctx_col, mask_col in Hv, Hx.
  rewrite omap_lookup_all in Hv by done.
  rewrite omap_lookup_all in Hx by done.
  destruct (elems3 ctx !! s) as [m|] eqn:Em; [|done].
  destruct (elems2 mask !! s) as [r|] eqn:Er; [|done].
  simpl in Hv, Hx. split.
  - apply (proj1 (Forall_forall _ _) Hwidth). unfold ctx_col.
    apply list_elem_of_omap. exists m. split; [|done].
    by eapply list_elem_of_lookup_2.
  - pose proof (Forall_lookup_1 _ _ _ _ Hbin Er) as Hr.
    pose proof (Forall_lookup_1 _ _ _ _ Hr Hx) as [->| ->]; simpl in *.
    + right. split; [done|].
      pose proof (Hpad s b m r Em Er Hx) as Hz. congruence.
    + by left.
Qed.

(** C3, as the code has it.  Under [mean_ctx], when the stream and its
    0/1 mask describe the same positions and every padded position of the
    stream holds the zero vector, [f_init] applies the initialiser's
    projection to the per-batch-element mean over the valid positions
    only: the sum of the vectors at the valid positions divided by the
    number of valid positions. *)
Theorem mean_ctx_is_masked_mean `{Layers} d (txt_ctx : tensor3)
    (txt_ctx_mask : tensor2) :
  wf_decoder d →
  dec_init d = "mean_ctx" →
  same_positions txt_ctx txt_ctx_mask →
  binary_mask txt_ctx_mask →
  padding_is_zero txt_ctx txt_ctx_mask →
  f_init d txt_ctx txt_ctx_mask
  = ([Call_ff_dec_init (masked_mean txt_ctx txt_ctx_mask)],
     Ok (Some (ff_dec_init (masked_mean txt_ctx txt_ctx_mask)))).
Proof.
  intros Hwf Hm Hsame Hbin Hpad.
  rewrite (f_init_mean d txt_ctx txt_ctx_mask Hwf Hm).
  assert (tdiv (sum0_3 txt_ctx) (unsqueeze1 (sum0_2 txt_ctx_mask))
          = masked_mean txt_ctx txt_ctx_mask) as ->; [|done].
  destruct (sums_lengths _ _ Hsame) as [Hl3 Hl2].
  apply list_eq. intros b. rewrite tdiv_lookup. unfold masked_mean.
  rewrite list_lookup_fmap.
  destruct (decide (b < size1 txt_ctx)) as [Hb|Hb].
  - destruct (sums_rows _ _ b Hsame Hb) as [-> ->].
    rewrite lookup_seq_lt by done. simpl. f_equal.
    unfold masked_mean_row, valid_vectors.
    destruct (col_masked _ _ _ (columns_related _ _ b Hsame Hbin Hpad Hb)
                (zeros1 (size2 txt_ctx)) 0%R (zeros1_length _)) as [-> ->].
    apply map_ext. intros e. do 2 f_equal. lra.
  - rewrite (lookup_ge_None_2 (sum0_3 txt_ctx)) by lia.
    by rewrite lookup_seq_ge by lia.
Qed.

Lemma mean_decoder_wf : wf_decoder mean_decoder.
Proof. split; reflexivity. Qed.

Lemma clean_positions : same_positions clean_ctx dirty_mask.
Proof. repeat split; repeat constructor. Qed.

Lemma clean_padding : padding_is_zero clean_ctx dirty_mask.
Proof.
  intros [|[|s]] b m r Hm Hr Hb; simpl in *; try done.
  - injection Hm as <-. injection Hr as <-.
    destruct b as [|b]; simpl in *; [|done].
    injection Hb as Hb. lra.
  - injection Hm as <-. injection Hr as <-.
    by destruct b as [|b]; simpl in *.
Qed.

Lemma mean_ctx_is_masked_mean_witness :
  f_init (H := zero_layers) mean_decoder clean_ctx dirty_mask
  = ([Call_ff_dec_init (masked_mean clean_ctx dirty_mask)],
     Ok (Some (@ff_dec_init zero_layers
                 (masked_mean clean_ctx dirty_mask)))).
Proof.
  apply (mean_ctx_is_masked_mean (H := zero_layers) mean_decoder clean_ctx
           dirty_mask mean_decoder_wf eq_refl clean_positions).
  - repeat constructor; (by left) || (by right).
  - exact clean_padding.
Defined.

Lemma dirty_quotient :
  tdiv (sum0_3 dirty_ctx) (unsqueeze1 (sum0_2 dirty_mask))
  = [[Fin ((0 + 1 + 5) / (0 + 1 + 0))]].
Proof.
  unfold tdiv, sum0_3, sum0_2, unsqueeze1. simpl.
  destruct (Req_EM_T (0 + 1 + 0) 0) as [E|_]; [lra|reflexivity].
Qed.

Lemma keep_valid_at_one (v : vec) : keep_valid (v, Fin 1) = Some v.
Proof. unfold keep_valid. simpl fst. simpl snd. by rewrite valid_one. Qed.

Lemma keep_valid_at_zero (v : vec) : keep_valid (v, Fin 0) = None.
Proof. unfold keep_valid. simpl fst. simpl snd. by rewrite valid_zero. Qed.

Lemma dirty_mean : masked_mean dirty_ctx dirty_mask = [[Fin ((0 + 1) / 1)]].
Proof.
  unfold masked_mean, masked_mean_row, valid_vectors, ctx_col, mask_col.
  simpl seq. simpl size2. simpl elems3. simpl elems2.
  cbn [map omap list_omap lookup list_lookup zip zip_with].
  rewrite keep_valid_at_one, keep_valid_at_zero. simpl.
  destruct (Req_EM_T 1 0) as [E|_]; [lra|reflexivity].
Qed.

(** C3 as stated fails: a padded position that does not hold zeros enters
    the sum, so what is projected is not the mean over the valid
    positions (6 is projected; the mean over the valid position is 1). *)
Lemma mean_ctx_counts_padding :
  f_init (H := zero_layers) mean_decoder dirty_ctx dirty_mask
  ≠ ([Call_ff_dec_init (masked_mean dirty_ctx dirty_mask)],
     Ok (Some (@ff_dec_init zero_layers
                 (masked_mean dirty_ctx dirty_mask)))).
Proof.
  rewrite (f_init_mean (H := zero_layers) mean_decoder dirty_ctx dirty_mask
             mean_decoder_wf eq_refl).
  cbv zeta. rewrite dirty_quotient, dirty_mean.
  intros Heq. injection Heq as Harg _.
  assert ((0 + 1 + 5) / (0 + 1 + 0) = 6)%R as E1 by (field_simplify; lra).
  assert ((0 + 1) / 1 = 1)%R as E2 by (field_simplify; lra).
  rewrite E1, E2 in Harg. lra.
Qed.

(** ** The divisor of the [mean_ctx] initialiser *)

Lemma col_count (xs : list scalar) :
  Forall (λ x, x = Fin 0 ∨ x = Fin 1) xs →
  ∀ a, ∃ r, foldl fadd (Fin a) xs = Fin r ∧ (a <= r)%R
            ∧ (Fin 1 ∈ xs → (a + 1 <= r)%R).
Proof.
  induction 1 as [|x xs Hx _ IH]; intros a.
  - exists a. split; [done|]. split; [lra|]. intros Hin. by inversion Hin.
  - destruct Hx as [-> | ->]; simpl.
    + destruct (IH (a + 0)%R) as (r & -> & Hle & Hone).
      exists r. split; [done|]. split; [lra|].
      intros Hin. apply elem_of_cons in Hin as [Heq|Hin].
      * injection Heq as Heq. lra.
      * specialize (Hone Hin). lra.
    + destruct (IH (a + 1)%R) as (r & -> & Hle & _).
      exists r. split; [done|]. split; lra.
Qed.

Lemma vadd_fin (u v : vec) :
  Forall is_fin u → Forall is_fin v → Forall is_fin (vadd u v).
Proof.
  intros Hu. revert v. induction Hu as [|x u Hx _ IH]; intros v Hv; [done|].
  destruct Hv as [|y v Hy Hv]; [done|].
  unfold vadd in *. simpl. constructor; [|by apply IH].
  apply is_fin_inv in Hx as [? ->]. by apply is_fin_inv in Hy as [? ->].
Qed.

Lemma foldl_vadd_fin (vs : list vec) (acc : vec) :
  Forall is_fin acc → Forall (Forall is_fin) vs →
  Forall is_fin (foldl vadd acc vs).
Proof.
  intros Hacc Hvs. revert acc Hacc.
  induction Hvs as [|v vs Hv _ IH]; intros acc Hacc; [done|].
  simpl. apply IH. by apply vadd_fin.
Qed.

Lemma fdiv_fin a r : (1 <= r)%R → fdiv (Fin a) (Fin r) = Fin (a / r).
Proof.
  intros Hr. simpl. destruct (Req_EM_T r 0) as [E|_]; [lra|done].
Qed.

(** C7, as the code has it.  Under [mean_ctx] the division is not
    guarded: [f_init] divides the summed stream by the plain per-element
    count of valid positions.  When the stream is finite, the mask is a 0/1
    mask over the same positions and every batch element has a valid
    position, every divisor is at least 1 and every entry handed to the
    initialiser's projection is finite. *)
Theorem mean_ctx_divisor `{Layers} d (txt_ctx : tensor3)
    (txt_ctx_mask : tensor2) :
  wf_decoder d →
  dec_init d = "mean_ctx" →
  same_positions txt_ctx txt_ctx_mask →
  binary_mask txt_ctx_mask →
  finite_stream txt_ctx →
  some_valid_position txt_ctx_mask →
  let divisor := sum0_2 txt_ctx_mask in
  let x := tdiv (sum0_3 txt_ctx) (unsqueeze1 divisor) in
  f_init d txt_ctx txt_ctx_mask
  = ([Call_ff_dec_init x], Ok (Some (ff_dec_init x))) ∧
  Forall (λ c, ∃ r, c = Fin r ∧ (1 <= r)%R) divisor ∧
  Forall (Forall is_fin) x.
Proof.
  intros Hwf Hm Hsame Hbin Hfin Hvalid. cbv zeta.
  split; [exact (f_init_mean d txt_ctx txt_ctx_mask Hwf Hm)|].
  destruct (sums_lengths _ _ Hsame) as [Hl3 Hl2].
  pose proof Hsame as (_ & _ & _ & Hcols).
  assert (∀ b c, sum0_2 txt_ctx_mask !! b = Some c →
                 ∃ r, c = Fin r ∧ (1 <= r)%R) as Hdiv.
  { intros b c Hc.
    assert (b < size1 txt_ctx) as Hb.
    { apply lookup_lt_Some in Hc. lia. }
    destruct (sums_rows _ _ b Hsame Hb) as [_ Hsum].
    rewrite Hsum in Hc. injection Hc as <-.
    destruct (col_count (mask_col txt_ctx_mask b)) with (a := 0%R)
      as (r & Hr & _ & Hone).
    - unfold mask_col. apply Forall_forall. intros x Hx.
      apply list_elem_of_omap in Hx as (row & Hrow & Hxb).
      apply (proj1 (Forall_forall _ _) Hbin) in Hrow.
      apply list_elem_of_lookup_2 in Hxb.
      by apply (proj1 (Forall_forall _ _) Hrow).
    - exists r. split; [done|].
      destruct (Hvalid b ltac:(lia)) as (s & row & Hs & Hsb).
      assert (Fin 1 ∈ mask_col txt_ctx_mask b) as Hin.
      { unfold mask_col. apply list_elem_of_omap. exists row.
        split; [|done]. by eapply list_elem_of_lookup_2. }
      specialize (Hone Hin). lra. }
  split.
  - apply Forall_lookup_2. exact Hdiv.
  - apply Forall_lookup_2. intros b row Hrow.
    rewrite tdiv_lookup in Hrow.
    destruct (sum0_3 txt_ctx !! b) as [num|] eqn:Hnum; [|done].
    destruct (sum0_2 txt_ctx_mask !! b) as [c|] eqn:Hc; [|done].
    simpl in Hrow. injection Hrow as <-.
    destruct (Hdiv b c Hc) as (r & -> & Hr).
    assert (b < size1 txt_ctx) as Hb.
    { apply lookup_lt_Some in Hc. lia. }
    destruct (sums_rows _ _ b Hsame Hb) as [Hsum _].
    rewrite Hsum in Hnum. injection Hnum as <-.
    rewrite Forall_map. eapply Forall_impl.
    + apply foldl_vadd_fin.
      * unfold zeros1. apply Forall_replicate. exact I.
      * unfold ctx_col. apply Forall_forall. intros v Hv.
        apply list_elem_of_omap in Hv as (m & Hmem & Hmb).
        apply (proj1 (Forall_forall _ _) Hfin) in Hmem.
        apply list_elem_of_lookup_2 in Hmb.
        by apply (proj1 (Forall_forall _ _) Hmem).
    + intros e He. simpl. apply is_fin_inv in He as [a ->].
      by rewrite fdiv_fin.
Qed.

Lemma mean_ctx_divisor_witness :
  Forall (Forall is_fin)
    (tdiv (sum0_3 clean_ctx) (unsqueeze1 (sum0_2 dirty_mask))).
Proof.
  eapply (mean_ctx_divisor (H := zero_layers) mean_decoder clean_ctx
            dirty_mask mean_decoder_wf eq_refl clean_positions).
  - repeat constructor; (by left) || (by right).
  - repeat constructor.
  - intros b Hb. simpl in Hb. exists 0, [Fin 1].
    destruct b as [|b]; [done|lia].
Defined.

Lemma void_quotient :
  tdiv (sum0_3 void_ctx) (unsqueeze1 (sum0_2 void_mask)) = [[NaN]].
Proof.
  unfold tdiv, sum0_3, sum0_2, unsqueeze1. simpl.
  destruct (Req_EM_T (0 + 0) 0) as [_|E]; [|lra].
  destruct (Rlt_dec 0 (0 + 0)) as [E|_]; [lra|].
  destruct (Rlt_dec (0 + 0) 0) as [E|_]; [lra|reflexivity].
Qed.

(** C7 as stated fails: for a batch element without a valid position the
    divisor is 0, nothing intervenes, and the initial hidden state is
    NaN. *)
Lemma mean_ctx_zero_count_gives_nan :
  sum0_2 void_mask = [Fin (0 + 0)] ∧
  f_init (H := zero_layers) mean_decoder void_ctx void_mask
  = ([Call_ff_dec_init [[NaN]]], Ok (Some [[NaN]])).
Proof.
  split; [reflexivity|].
  rewrite (f_init_mean (H := zero_layers) mean_decoder void_ctx void_mask
             mean_decoder_wf eq_refl).
  cbv zeta. rewrite void_quotient. reflexivity.
Qed.

(** ** The vocabulary distribution *)

(** C4, as the code has it.  A returning [f_next] has called the
    vocabulary projection once, and returns one row per row of the scores
    this call produced, of the same length.  For every batch element whose
    scores are finite and not empty, the returned row is a vector of
    negative log-probabilities: every entry is a non-negative real, and the
    exponentials of the negated entries sum to exactly 1.  Arithmetic is
    exact real arithmetic. *)
Theorem f_next_neg_log_prob `{Layers} seed d σ ctx_dict y h log log_p h2 :
  f_next seed d σ ctx_dict y h = (log, Ok (log_p, h2)) →
  ∃ logit,
    out2prob_calls log = [(σ !!! out2prob_weight d, logit)] ∧
    Forall2 (λ scores row,
               length row = length scores ∧
               (scores ≠ [] → Forall is_fin scores →
                Forall nonneg row ∧ prob_mass row = Fin 1))
      (out2prob (σ !!! out2prob_weight d) logit) log_p.
Proof.
  intros Hrun.
  apply f_next_scores in Hrun as (logit & Hcalls & ->).
  exists logit. split; [done|].
  unfold neg_log_softmax. apply Forall2_fmap_r, Forall_Forall2_diag.
  apply Forall_forall. intros scores _. split.
  - unfold log_softmax_row. by rewrite !length_map.
  - intros Hne Hfin.
    apply neg_log_softmax_row_distribution; [done|].
    by apply log_softmax_row_fin.
Qed.

Lemma f_next_neg_log_prob_witness :
  Forall nonneg demo_row ∧ prob_mass demo_row = Fin 1.
Proof.
  pose proof (f_next_unfold (H := zero_layers) 0 demo_decoder demo_store
                demo_ctx_dict demo_y demo_h demo_stream demo_stream
                demo_wf eq_refl eq_refl) as Hrun.
  cbv zeta in Hrun.
  destruct (f_next_neg_log_prob (H := zero_layers) 0 demo_decoder demo_store
              demo_ctx_dict demo_y (Some demo_h) _ _ _ Hrun)
    as (logit & Hcalls & Hrows).
  injection Hcalls as <-.
  apply Forall2_cons_1 in Hrows as [[_ Hrow] _].
  apply Hrow; [discriminate|by repeat constructor].
Defined.

(** C4 as stated fails: not every call returns a distribution.  With the
    [mean_ctx] policy and a batch element without a valid position the
    initial state is NaN; the step entered with this state returns a row of
    NaN, whose entries are not non-negative reals and whose mass is not
    1. *)
Lemma f_next_nan_row :
  ∃ init_log log,
    f_init (H := linear_layers) mean_decoder void_ctx void_mask
    = (init_log, Ok (Some [[NaN]])) ∧
    f_next (H := linear_layers) 0 mean_decoder demo_store void_ctx_dict
      demo_y (Some [[NaN]]) = (log, Ok ([[NaN; NaN]], [[NaN]])) ∧
    ¬ Forall nonneg [NaN; NaN] ∧
    prob_mass [NaN; NaN] ≠ Fin 1.
Proof.
  eexists _, _. split; [|split; [|split]].
  - rewrite (f_init_mean (H := linear_layers) mean_decoder void_ctx void_mask
               mean_decoder_wf eq_refl).
    cbv zeta. rewrite void_quotient. reflexivity.
  - exact (f_next_unfold (H := linear_layers) 0 mean_decoder demo_store
             void_ctx_dict demo_y [[NaN]] (void_ctx, void_mask) demo_stream
             mean_decoder_wf eq_refl eq_refl).
  - intros Hnn. apply Forall_cons in Hnn as [(r & E & _) _]. discriminate.
  - discriminate.
Qed.

(** ** What a step is shown

    The input of step [t] is a function of the rows [y[0..t]] of the
    target: two targets that agree on these rows lead to the same calls of
    [f_next] up to step [t], whatever they hold afterwards. *)

Section Prefix.
Context `{Layers} `{!LayerShapes}.

Lemma hidden_threaded_lookup h0 log i x h :
  hidden_threaded h0 log →
  f_next_inputs log !! i = Some (x, h) →
  match i with
  | 0 => h = h0
  | S j => ∃ r, f_next_outputs log !! j = Some r ∧ h = Some r.2
  end.
Proof.
  unfold hidden_threaded. intros Hth Hin.
  pose proof (lookup_lt_Some _ _ _ Hin) as Hi.
  pose proof (f_equal (λ l, l !! i) Hth) as E. simpl in E.
  rewrite list_lookup_fmap, Hin, lookup_take_lt in E by done.
  destruct i as [|j]; simpl in E.
  - by injection E.
  - rewrite list_lookup_fmap in E.
    destruct (f_next_outputs log !! j) as [r|]; [|done].
    injection E as ->. by exists r.
Qed.

(** The hidden state a step returns does not depend on the draw of the
    output dropout: the mask is applied after the second cell. *)
Lemma f_next_hidden_any_draw seed seed' d σ
    (ctx_dict : gmap string (tensor3 * tensor2)) y h txt img l l' r r' :
  wf_decoder d →
  ctx_dict !! "txt" = Some txt →
  ctx_dict !! "image" = Some img →
  f_next seed d σ ctx_dict y (Some h) = (l, Ok r) →
  f_next seed' d σ ctx_dict y (Some h) = (l', Ok r') →
  r'.2 = r.2.
Proof.
  intros Hwf Htxt Himg.
  rewrite (f_next_unfold seed d σ ctx_dict y h txt img Hwf Htxt Himg).
  rewrite (f_next_unfold seed' d σ ctx_dict y h txt img Hwf Htxt Himg).
  cbv zeta. by intros [= _ <-] [= _ <-].
Qed.

(** With the same draw, or without output dropout, a step is a function
    of its inputs. *)
Lemma f_next_same_draw seed seed' d σ
    (ctx_dict : gmap string (tensor3 * tensor2)) y h txt img :
  wf_decoder d →
  ctx_dict !! "txt" = Some txt →
  ctx_dict !! "image" = Some img →
  (positive_rate (dropout_out d) = true → seed' = seed) →
  f_next seed' d σ ctx_dict y (Some h) = f_next seed d σ ctx_dict y (Some h).
Proof.
  intros Hwf Htxt Himg Hdraw.
  rewrite (f_next_unfold seed d σ ctx_dict y h txt img Hwf Htxt Himg).
  rewrite (f_next_unfold seed' d σ ctx_dict y h txt img Hwf Htxt Himg).
  cbv zeta. destruct (positive_rate (dropout_out d)); [|done].
  by rewrite Hdraw.
Qed.

(** Two runs, each with its own generator states, on targets that share
    their first [n] rows: the first [n] calls of [f_next] have the same
    inputs and return the same hidden state. *)
Lemma traces_agree seeds seeds' d σ
    (ctx_dict : gmap string (tensor3 * tensor2)) W
    (y y' : list (list Z)) txt img log log' h0 n :
  wf_decoder d →
  ctx_dict !! "txt" = Some txt →
  ctx_dict !! "image" = Some img →
  hidden_threaded (Some h0) log →
  hidden_threaded (Some h0) log' →
  (∀ k, k < n → teacher_forced_step seeds d σ ctx_dict W y log 0 k) →
  (∀ k, k < n → teacher_forced_step seeds' d σ ctx_dict W y' log' 0 k) →
  take n y' = take n y →
  ∀ k, k < n →
    f_next_inputs log' !! k = f_next_inputs log !! k ∧
    ∀ r r', f_next_outputs log !! k = Some r →
            f_next_outputs log' !! k = Some r' → r'.2 = r.2.
Proof.
  intros Hwf Htxt Himg Hth Hth' Hsteps Hsteps' Hpre.
  induction k as [|j IH]; intros Hk.
  - destruct (Hsteps 0 Hk)
      as (ids & yn & x & h & lp & h2 & pk & sl & Hy & _ & Hx & Hin & Hrun
          & Hout & _).
    destruct (Hsteps' 0 Hk)
      as (ids' & yn' & x' & h' & lp' & h2' & pk' & sl' & Hy' & _ & Hx' & Hin'
          & Hrun' & Hout' & _).
    simpl in Hy, Hy'.
    assert (ids' = ids) as ->.
    { pose proof (f_equal (λ l, l !! 0) Hpre) as E. simpl in E.
      rewrite !lookup_take_lt in E by done. congruence. }
    assert (x' = x) as -> by (by eapply rows_of_fun).
    pose proof (hidden_threaded_lookup _ _ _ _ _ Hth Hin) as E1.
    pose proof (hidden_threaded_lookup _ _ _ _ _ Hth' Hin') as E2.
    simpl in E1, E2. assert (h' = h) as -> by congruence.
    split; [congruence|]. intros r r' Hr Hr'.
    assert (r = (lp, h2)) as -> by congruence.
    assert (r' = (lp', h2')) as -> by congruence.
    exact (f_next_hidden_any_draw _ _ d σ ctx_dict x h txt img _ _ _ _
             Hwf Htxt Himg Hrun Hrun').
  - destruct (IH ltac:(lia)) as [_ IHout].
    destruct (Hsteps (S j) Hk)
      as (ids & yn & x & h & lp & h2 & pk & sl & Hy & _ & Hx & Hin & Hrun
          & Hout & _).
    destruct (Hsteps' (S j) Hk)
      as (ids' & yn' & x' & h' & lp' & h2' & pk' & sl' & Hy' & _ & Hx' & Hin'
          & Hrun' & Hout' & _).
    simpl in Hy, Hy'.
    assert (ids' = ids) as ->.
    { pose proof (f_equal (λ l, l !! S j) Hpre) as E. simpl in E.
      rewrite !lookup_take_lt in E by done. congruence. }
    assert (x' = x) as -> by (by eapply rows_of_fun).
    destruct (hidden_threaded_lookup _ _ _ _ _ Hth Hin) as (r0 & Hr0 & E1).
    destruct (hidden_threaded_lookup _ _ _ _ _ Hth' Hin') as (r0' & Hr0' & E2).
    assert (h' = h) as ->.
    { pose proof (IHout r0 r0' Hr0 Hr0') as E. congruence. }
    split; [congruence|]. intros r r' Hr Hr'.
    assert (r = (lp, h2)) as -> by congruence.
    assert (r' = (lp', h2')) as -> by congruence.
    exact (f_next_hidden_any_draw _ _ d σ ctx_dict x h txt img _ _ _ _
             Hwf Htxt Himg Hrun Hrun').
Qed.

(** When the two runs make the same draws on these steps, or the module
    has no output dropout, the calls return the same rows as well. *)
Lemma traces_agree_draws seeds seeds' d σ
    (ctx_dict : gmap string (tensor3 * tensor2)) W
    (y y' : list (list Z)) txt img log log' h0 n :
  wf_decoder d →
  ctx_dict !! "txt" = Some txt →
  ctx_dict !! "image" = Some img →
  hidden_threaded (Some h0) log →
  hidden_threaded (Some h0) log' →
  (∀ k, k < n → teacher_forced_step seeds d σ ctx_dict W y log 0 k) →
  (∀ k, k < n → teacher_forced_step seeds' d σ ctx_dict W y' log' 0 k) →
  take n y' = take n y →
  (positive_rate (dropout_out d) = true → ∀ k, k < n → seeds' k = seeds k) →
  ∀ k, k < n →
    f_next_inputs log' !! k = f_next_inputs log !! k ∧
    f_next_outputs log' !! k = f_next_outputs log !! k.
Proof.
  intros Hwf Htxt Himg Hth Hth' Hsteps Hsteps' Hpre Hdraws k Hk.
  destruct (traces_agree seeds seeds' d σ ctx_dict W y y' txt img log log' h0
              n Hwf Htxt Himg Hth Hth' Hsteps Hsteps' Hpre k Hk) as [Hin _].
  split; [done|].
  destruct (Hsteps k Hk)
    as (ids & yn & x & h & lp & h2 & pk & sl & _ & _ & _ & Hi & Hrun
        & Hout & _).
  destruct (Hsteps' k Hk)
    as (ids' & yn' & x' & h' & lp' & h2' & pk' & sl' & _ & _ & _ & Hi'
        & Hrun' & Hout' & _).
  simpl in Hrun, Hrun'.
  assert (x' = x ∧ h' = h) as [-> ->] by (split; congruence).
  rewrite (f_next_same_draw (seeds k) (seeds' k) d σ ctx_dict x h txt img
             Hwf Htxt Himg) in Hrun' by (intros Hp; by apply Hdraws).
  rewrite Hout, Hout'. congruence.
Qed.

Lemma forward_inputs_depend_on_prefix seeds seeds' d σ
    (ctx_dict : gmap string (tensor3 * tensor2)) (y y' : list (list Z))
    txt img B B' log loss log' loss' t :
  wf_decoder d →
  dec_init d = "zero" ∨ dec_init d = "mean_ctx" →
  ctx_dict !! "txt" = Some txt →
  ctx_dict !! "image" = Some img →
  valid_ids (length (σ !!! emb_weight d)) y →
  valid_ids (length (σ !!! out2prob_weight d)) y →
  rect B y →
  valid_ids (length (σ !!! emb_weight d)) y' →
  valid_ids (length (σ !!! out2prob_weight d)) y' →
  rect B' y' →
  forward seeds d σ ctx_dict y = (log, Ok loss) →
  forward seeds' d σ ctx_dict y' = (log', Ok loss') →
  t + 1 < length y →
  t + 1 < length y' →
  take (t + 1) y' = take (t + 1) y →
  ∀ k, k ≤ t → f_next_inputs log' !! k = f_next_inputs log !! k.
Proof.
  intros Hwf Hrec Htxt Himg Hv1 Hv2 Hr Hv1' Hv2' Hr' Hrun Hrun' Ht Ht' Hpre
    k Hk.
  destruct (forward_run seeds d σ ctx_dict y txt img B Hwf Hrec Htxt Himg Hv1 Hv2
              Hr ltac:(lia))
    as (l0 & s0 & il & h0 & E & Hinit & _ & _ & Hth & _ & Hsteps).
  destruct (forward_run seeds' d σ ctx_dict y' txt img B' Hwf Hrec Htxt Himg Hv1'
              Hv2' Hr' ltac:(lia))
    as (l0' & s0' & il' & h0' & E' & Hinit' & _ & _ & Hth' & _ & Hsteps').
  assert (l0 = log) as -> by congruence.
  assert (l0' = log') as -> by congruence.
  assert (h0' = h0) as -> by congruence.
  eapply (traces_agree seeds seeds' d σ ctx_dict _ y y' txt img log log' h0
            (t + 1)); try done.
  - intros j Hj. apply Hsteps. lia.
  - intros j Hj. apply Hsteps'. lia.
  - lia.
Qed.

End Prefix.

(** ** The training loss accumulator *)

(** C1.  On a well-formed call (both streams present, a recognised
    initialiser policy, a rectangular target of length [L >= 1] whose ids
    are rows of the embedding table and of the projection), [forward]
    returns, having entered [f_next] exactly [L-1] times and added exactly
    [L-1] terms to the loss.  At step [t] it enters [f_next] with the rows
    of the embedding table at the ids [y[t]] and with the hidden state
    threaded from the previous step (from [f_init] at step 0); the term it
    adds is the sum over the batch elements [b] of the entry, in column
    [y[t+1][b]], of row [b] of what this very call returned: the input of
    a step is position [t], its target position [t+1].  The loss is the sum
    of the terms.  No step is shown its target: the calls of [f_next] up to
    step [t] have the same inputs in every other run, whatever its dropout
    draws, on a well-formed target that agrees with [y] on the rows
    [0..t], whatever it holds at [t+1] and later. *)
Theorem forward_teacher_forcing `{Layers} `{!LayerShapes} seeds d σ
    (ctx_dict : gmap string (tensor3 * tensor2)) (y : list (list Z))
    txt img B :
  wf_decoder d →
  dec_init d = "zero" ∨ dec_init d = "mean_ctx" →
  ctx_dict !! "txt" = Some txt →
  ctx_dict !! "image" = Some img →
  valid_ids (length (σ !!! emb_weight d)) y →
  valid_ids (length (σ !!! out2prob_weight d)) y →
  rect B y →
  1 ≤ length y →
  ∃ log loss init_log (h0 : mat),
    forward seeds d σ ctx_dict y = (log, Ok loss) ∧
    f_init d txt.1 txt.2 = (init_log, Ok (Some h0)) ∧
    length (f_next_inputs log) = length y - 1 ∧
    length (loss_terms log) = length y - 1 ∧
    map snd (f_next_inputs log) =
      take (length y - 1)
        (Some h0 :: map (λ r, Some r.2) (f_next_outputs log)) ∧
    loss = foldl fadd (Fin 0) (map snd (loss_terms log)) ∧
    (∀ t, t + 1 < length y →
      ∃ (ids y_next : list Z) (x_t h_t log_p h2 : mat) (picked : vec)
        (step_log : list event),
        y !! t = Some ids ∧
        y !! (t + 1) = Some y_next ∧
        Forall2 (λ id row, (0 ≤ id)%Z ∧
                   (σ !!! emb_weight d) !! Z.to_nat id = Some row) ids x_t ∧
        f_next_inputs log !! t = Some (x_t, Some h_t) ∧
        f_next (seeds t) d σ ctx_dict x_t (Some h_t)
        = (step_log, Ok (log_p, h2)) ∧
        f_next_outputs log !! t = Some (log_p, h2) ∧
        length picked = length y_next ∧
        (∀ b id, y_next !! b = Some id →
           ∃ (row : vec) e, log_p !! b = Some row ∧ (0 ≤ id)%Z ∧
                            row !! Z.to_nat id = Some e ∧
                            picked !! b = Some e) ∧
        loss_terms log !! t = Some (y_next, foldl fadd (Fin 0) picked)) ∧
    (∀ seeds' (y' : list (list Z)) B' log' loss' t,
       valid_ids (length (σ !!! emb_weight d)) y' →
       valid_ids (length (σ !!! out2prob_weight d)) y' →
       rect B' y' →
       forward seeds' d σ ctx_dict y' = (log', Ok loss') →
       t + 1 < length y →
       t + 1 < length y' →
       take (t + 1) y' = take (t + 1) y →
       ∀ k, k ≤ t → f_next_inputs log' !! k = f_next_inputs log !! k).
Proof.
  intros Hwf Hrec Htxt Himg Hv1 Hv2 Hrect Hlen.
  destruct (forward_run seeds d σ ctx_dict y txt img B Hwf Hrec Htxt Himg Hv1 Hv2
              Hrect Hlen)
    as (log & loss & init_log & h0 & Hrun & Hinit & Hn1 & Hn2 & Hth & Hloss
        & Hsteps).
  unfold hidden_threaded in Hth. rewrite Hn1 in Hth.
  exists log, loss, init_log, h0.
  split; [done|]. split; [done|]. split; [done|]. split; [done|].
  split; [done|]. split; [done|]. split.
  - intros t Ht.
    destruct (Hsteps t Ht)
      as (ids & yn & x & h & lp & h2 & pk & sl & F1 & F2 & F3 & F4 & F5 & F6
          & [F7 F7'] & F8 & _).
    by exists ids, yn, x, h, lp, h2, pk, sl.
  - intros seeds' y' B' log' loss' t Hv1' Hv2' Hrect' Hrun' Ht Ht' Hpre.
    by eapply (forward_inputs_depend_on_prefix seeds seeds' d σ ctx_dict y y'
                 txt img B B').
Qed.

Lemma demo_f_init :
  f_init (H := zero_layers) demo_decoder demo_stream.1 demo_stream.2
  = ([], Ok (Some [[Fin 0]])).
Proof. reflexivity. Qed.

Lemma demo_emb_row_1 :
  (demo_store !!! emb_weight demo_decoder) !! Z.to_nat 1 = Some [Fin 1].
Proof. reflexivity. Qed.

Lemma demo_f_next_at :
  ∃ log, f_next (H := zero_layers) (demo_seeds 0) demo_decoder demo_store
           demo_ctx_dict [[Fin 1]] (Some [[Fin 0]])
         = (log, Ok ([demo_row], [[Fin 0]])).
Proof.
  eexists.
  exact (f_next_unfold (H := zero_layers) 0 demo_decoder demo_store
           demo_ctx_dict [[Fin 1]] [[Fin 0]] demo_stream demo_stream
           demo_wf eq_refl eq_refl).
Qed.

(** In the small configuration the single step of the target [[1]; [0]] is
    entered with row 1 of the embedding table and the zero state, and its
    term is scored against the id 0 of the second position. *)
Lemma forward_teacher_forcing_witness :
  ∃ log loss, forward (H := zero_layers) demo_seeds demo_decoder demo_store
                demo_ctx_dict demo_target = (log, Ok loss)
              ∧ f_next_inputs log = [([[Fin 1]], Some [[Fin 0]])]
              ∧ loss_terms log = [([0%Z], fadd (Fin 0) demo_term)]
              ∧ loss = fadd (Fin 0) (fadd (Fin 0) demo_term).
Proof.
  destruct (forward_teacher_forcing (H := zero_layers) demo_seeds demo_decoder
              demo_store demo_ctx_dict demo_target demo_stream demo_stream 1
              demo_wf (or_introl eq_refl) eq_refl eq_refl
              demo_valid_ids demo_valid_ids
              ltac:(repeat constructor) ltac:(simpl; lia))
    as (log & loss & il & h0 & Hrun & Hinit & Hn & Hm & Hth & Hloss & Hstep
        & _).
  destruct (Hstep 0 ltac:(simpl; lia))
    as (ids & yn & x & h & lp & h2 & pk & sl & F1 & F2 & F3 & F4 & F5 & F6
        & F7 & F7' & F8).
  exists log, loss. split; [done|].
  injection F1 as <-. injection F2 as <-.
  rewrite demo_f_init in Hinit. injection Hinit as _ <-.
  apply Forall2_cons_inv_l in F3 as (row & x' & [_ Hrow] & Hx' & ->).
  apply Forall2_nil_inv_l in Hx' as ->.
  rewrite demo_emb_row_1 in Hrow. injection Hrow as <-.
  simpl in Hn, Hm.
  destruct (f_next_inputs log) as [|i0 [|? ?]] eqn:Ein; try done.
  destruct (loss_terms log) as [|t0 [|? ?]] eqn:Et; try done.
  simpl in Hth, F4, F8, Hloss. injection F4 as ->. injection F8 as ->.
  assert (h = [[Fin 0]]) as ->.
  { change (length demo_target - 1) with 1 in Hth. simpl in Hth. congruence. }
  assert (lp = [demo_row]) as ->.
  { destruct demo_f_next_at as [l E]. rewrite E in F5. congruence. }
  destruct pk as [|e [|? ?]]; try done.
  destruct (F7' 0 0%Z eq_refl) as (r & e' & Hr & _ & He & Hp).
  injection Hr as <-. injection Hp as ->.
  assert (e' = demo_term) as -> by (by injection He).
  by subst loss.
Defined.

(** ** Rejected targets *)

Lemma index_id_bad {A} (xs : list A) (i : Z) :
  ¬ (0 ≤ i < Z.of_nat (length xs))%Z → index_id xs i = ([], Raise IndexError).
Proof.
  intros Hbad. unfold index_id, index.
  destruct (decide (0 ≤ i)%Z) as [Hlo|]; [|done].
  rewrite lookup_ge_None_2; [done|lia].
Qed.

Lemma emb_row_bad (W : mat) (ids : list Z) :
  ¬ Forall (λ i, (0 ≤ i < Z.of_nat (length W))%Z) ids →
  emb_row W ids = ([], Raise IndexError).
Proof.
  induction ids as [|i ids IH]; intros Hbad.
  - destruct Hbad. constructor.
  - unfold emb_row in *. simpl.
    destruct (decide (0 ≤ i < Z.of_nat (length W))%Z) as [Hi|Hi].
    + destruct (index_id_ok W i Hi) as (x & Hx & _).
      rewrite (bind_ok _ _ [] x [] (Raise IndexError) Hx); [done|].
      apply bind_raise, IH.
      intros Hids. apply Hbad. by constructor.
    + by rewrite index_id_bad.
Qed.

Lemma emb_bad (W : mat) (y : list (list Z)) :
  ¬ valid_ids (length W) y → emb W y = ([], Raise IndexError).
Proof.
  unfold valid_ids. induction y as [|ids y IH]; intros Hbad.
  - destruct Hbad. constructor.
  - unfold emb in *. simpl.
    destruct (decide (Forall (λ i, (0 ≤ i < Z.of_nat (length W))%Z) ids))
      as [Hids|Hids].
    + destruct (emb_row_ok W ids Hids) as (x & Hx & _).
      rewrite (bind_ok _ _ [] x [] (Raise IndexError) Hx); [done|].
      apply bind_raise, IH.
      intros Hy. apply Hbad. by constructor.
    + by rewrite emb_row_bad.
Qed.

(** X1.  A target holding an id that is not a row of the embedding table
    (negative, or at least the number of rows) makes [forward] raise an
    index error at once: no layer has been called, the context dictionary
    has not been read, and the initialiser has not run. *)
Theorem forward_rejects_unknown_id `{Layers} seeds d σ
    (ctx_dict : gmap string (tensor3 * tensor2)) (y : list (list Z)) :
  ¬ valid_ids (length (σ !!! emb_weight d)) y →
  forward seeds d σ ctx_dict y = ([], Raise IndexError).
Proof.
  intros Hbad. unfold forward.
  by rewrite (bind_raise _ _ [] IndexError (emb_bad _ _ Hbad)).
Qed.

Lemma forward_rejects_unknown_id_witness :
  forward (H := zero_layers) demo_seeds demo_decoder demo_store demo_ctx_dict bad_target
  = ([], Raise IndexError).
Proof.
  apply (forward_rejects_unknown_id (H := zero_layers)).
  intros Hv. apply Forall_cons in Hv as [Hrow _].
  apply Forall_cons in Hrow as [Hi _].
  change (length (demo_store !!! emb_weight demo_decoder)) with 2 in Hi.
  lia.
Defined.

(** X2.  With ids that are rows of the table but no textual stream in the
    dictionary, [forward] raises the missing-key error for ["txt"] before
    the initialiser or any layer is called, whatever the length of the
    target and whatever else the dictionary holds. *)
Theorem forward_needs_txt `{Layers} seeds d σ
    (ctx_dict : gmap string (tensor3 * tensor2)) (y : list (list Z)) :
  valid_ids (length (σ !!! emb_weight d)) y →
  ctx_dict !! "txt" = None →
  forward seeds d σ ctx_dict y = ([], Raise (KeyError "txt")).
Proof.
  intros Hv Htxt. destruct (emb_ok _ _ Hv) as (y_emb & Hemb & _).
  unfold forward.
  rewrite (bind_ok _ _ [] y_emb [] (Raise (KeyError "txt")) Hemb); [done|].
  unfold dict_get. by rewrite Htxt.
Qed.

Lemma forward_needs_txt_witness :
  forward (H := zero_layers) demo_seeds demo_decoder demo_store ∅ demo_target
  = ([], Raise (KeyError "txt")).
Proof.
  apply (forward_needs_txt (H := zero_layers) demo_seeds demo_decoder demo_store ∅
           demo_target demo_valid_ids).
  reflexivity.
Defined.

(** X3.  A target of exactly one time step costs nothing: [forward]
    returns the loss 0 without entering [f_next] and without adding a
    term.  Only the textual stream is needed for that: the dictionary may
    lack the visual stream, and the initialiser policy may be any string. *)
Theorem forward_single_time_step `{Layers} seeds d σ
    (ctx_dict : gmap string (tensor3 * tensor2)) (y : list (list Z)) txt :
  wf_decoder d →
  ctx_dict !! "txt" = Some txt →
  valid_ids (length (σ !!! emb_weight d)) y →
  length y = 1 →
  ∃ log, forward seeds d σ ctx_dict y = (log, Ok (Fin 0)) ∧
         f_next_inputs log = [] ∧ loss_terms log = [].
Proof.
  intros Hwf Htxt Hv Hlen.
  apply (forward_short_target seeds d σ ctx_dict y txt Hwf Htxt Hv). lia.
Qed.

Lemma odd_decoder_wf : wf_decoder odd_decoder.
Proof. split; reflexivity. Qed.

Lemma forward_single_time_step_witness :
  ∃ log, forward (H := zero_layers) demo_seeds odd_decoder demo_store img_ctx_dict
           short_target = (log, Ok (Fin 0)) ∧
         f_next_inputs log = [] ∧ loss_terms log = [].
Proof.
  apply (forward_single_time_step (H := zero_layers) demo_seeds odd_decoder demo_store
           img_ctx_dict short_target demo_stream odd_decoder_wf eq_refl).
  - repeat constructor; lia.
  - reflexivity.
Defined.

(** ** More on the constructor *)

Lemma init_dropout_rate a rnd (σ0 : store) d σ :
  __init__ a rnd σ0 = Ok (d, σ) → (arg_dropout_out a <= 1)%Q.
Proof.
  unfold __init__, new_embedding, alloc. intros Hinit.
  destruct (decide (0 < arg_n_vocab a)); [|done].
  destruct (arg_ctx_size_dict a !! "txt"); [|done].
  destruct (arg_ctx_size_dict a !! "img"); [|done].
  destruct (positive_rate (arg_dropout_out a)) eqn:Hpos.
  - unfold new_dropout in Hinit.
    destruct (Qle_bool 0 (arg_dropout_out a)); [|done].
    destruct (Qle_bool (arg_dropout_out a) 1) eqn:Hle; [|done].
    by apply Qle_bool_iff.
  - unfold positive_rate in Hpos. apply negb_false_iff in Hpos.
    apply Qle_bool_iff in Hpos.
    eapply Qle_trans; [exact Hpos|]. by apply Qle_bool_iff.
Qed.

(** X4.  Construction can succeed only if the vocabulary is non-empty,
    the size dictionary has both keys ["txt"] and ["img"], and the dropout
    rate is at most 1: in every other case the constructor raises. *)
Theorem init_success_requires a rnd (σ0 : store) d σ :
  __init__ a rnd σ0 = Ok (d, σ) →
  0 < arg_n_vocab a ∧
  is_Some (arg_ctx_size_dict a !! "txt") ∧
  is_Some (arg_ctx_size_dict a !! "img") ∧
  (arg_dropout_out a <= 1)%Q.
Proof.
  intros Hinit.
  pose proof (init_spec a rnd σ0 d σ Hinit) as Hspec. cbv zeta in Hspec.
  destruct Hspec as (Hv & Ht & Hi & _).
  split; [done|]. split; [done|]. split; [done|].
  by eapply init_dropout_rate.
Qed.

Lemma init_success_requires_witness :
  0 < arg_n_vocab demo_args ∧
  is_Some (arg_ctx_size_dict demo_args !! "txt") ∧
  is_Some (arg_ctx_size_dict demo_args !! "img") ∧
  (arg_dropout_out demo_args <= 1)%Q.
Proof.
  exact (init_success_requires demo_args demo_draws ∅ demo_decoder demo_store
           demo_constructed).
Defined.

Lemma init_addresses a rnd (σ0 : store) d σ :
  __init__ a rnd σ0 = Ok (d, σ) →
  ∃ l_out,
    σ0 !! emb_weight d = None ∧ σ0 !! l_out = None ∧
    emb_weight d ≠ l_out ∧
    out2prob_weight d = (if arg_tied_emb a then emb_weight d else l_out) ∧
    ∀ l, l ≠ emb_weight d → l ≠ l_out → σ !! l = σ0 !! l.
Proof.
  unfold __init__, new_embedding, alloc. intros Hinit.
  destruct (decide (0 < arg_n_vocab a)) as [Hv|]; [|done].
  set (w_emb := <[0:=_]> _) in *.
  set (l_emb := fresh (dom σ0)) in *.
  destruct (arg_ctx_size_dict a !! "txt"); [|done].
  destruct (arg_ctx_size_dict a !! "img"); [|done].
  dropout_checked; [|done].
  set (w_out := init_mat _ _ (out2prob_entry rnd)) in *.
  set (σ1 := <[l_emb := w_emb]> σ0) in *.
  set (l_out := fresh (dom σ1)) in *.
  injection Hinit as <- <-. simpl.
  assert (σ0 !! l_emb = None) as Hfresh1.
  { apply not_elem_of_dom. apply is_fresh. }
  assert (σ1 !! l_out = None) as Hfresh2.
  { apply not_elem_of_dom. apply is_fresh. }
  assert (l_emb ≠ l_out) as Hne.
  { intros E. rewrite <- E in Hfresh2. unfold σ1 in Hfresh2.
    by rewrite lookup_insert_eq in Hfresh2. }
  exists l_out. split; [done|]. split.
  - unfold σ1 in Hfresh2. by rewrite lookup_insert_ne in Hfresh2.
  - split; [done|]. split; [done|].
    intros l H1 H2. unfold σ1. by rewrite !lookup_insert_ne.
Qed.

(** X5.  Construction allocates: the embedding table and the projection
    weight of a new module sit at addresses that held no tensor before,
    and every tensor that was in the store is still there unchanged.  A
    module therefore never shares a weight with one built earlier. *)
Theorem init_allocates_fresh a rnd (σ0 : store) d σ :
  __init__ a rnd σ0 = Ok (d, σ) →
  σ0 !! emb_weight d = None ∧
  σ0 !! out2prob_weight d = None ∧
  ∀ l w, σ0 !! l = Some w → σ !! l = Some w.
Proof.
  intros Hinit.
  destruct (init_addresses a rnd σ0 d σ Hinit)
    as (l_out & H1 & H2 & Hne & Hproj & Hframe).
  split; [done|]. split.
  - rewrite Hproj. by destruct (arg_tied_emb a).
  - intros l w Hl. rewrite Hframe; [done| |]; intros ->; congruence.
Qed.

Lemma init_allocates_fresh_witness :
  ∃ d σ, __init__ demo_args demo_draws (<[7 := [[Fin 1]]]> ∅) = Ok (d, σ)
         ∧ σ !! 7 = Some [[Fin 1]].
Proof.
  destruct (init_total demo_args demo_draws (<[7 := [[Fin 1]]]> ∅))
    as (d & σ & Hinit); [simpl; lia|by eexists|by eexists|done|].
  exists d, σ. split; [done|].
  by apply (init_allocates_fresh demo_args demo_draws _ d σ Hinit).
Defined.

(** X6.  Without [tied_emb] the embedding table and the projection weight
    are two tensors: an in-place update of either one leaves the other as
    it was. *)
Theorem untied_weights_independent a rnd (σ0 : store) d σ f :
  arg_tied_emb a = false →
  __init__ a rnd σ0 = Ok (d, σ) →
  emb_weight d ≠ out2prob_weight d ∧
  param_update (emb_weight d) f σ !!! out2prob_weight d
    = σ !!! out2prob_weight d ∧
  param_update (out2prob_weight d) f σ !!! emb_weight d
    = σ !!! emb_weight d.
Proof.
  intros Htied Hinit.
  pose proof (init_spec a rnd σ0 d σ Hinit) as Hspec. cbv zeta in Hspec.
  destruct Hspec as (_ & _ & _ & _ & _ & _ & _ & _ & _ & _ & _ & Hne).
  specialize (Hne Htied). split; [done|].
  unfold param_update. by rewrite !lookup_total_alter_ne.
Qed.

Lemma untied_weights_independent_witness :
  param_update (emb_weight demo_decoder) (λ _, []) demo_store
    !!! out2prob_weight demo_decoder
  = demo_store !!! out2prob_weight demo_decoder.
Proof.
  apply (untied_weights_independent demo_args demo_draws ∅ demo_decoder
           demo_store (λ _, []) eq_refl demo_constructed).
Defined.

(** X7.  Tying and the padding index combine: in a freshly constructed
    module with [tied_emb], row 0 of the projection weight is the zero
    vector (it is the padding row of the embedding table); without tying
    it is the row that was drawn for the projection. *)
Theorem projection_padding_row a rnd (σ0 : store) d σ :
  __init__ a rnd σ0 = Ok (d, σ) →
  out2prob_weight_row d σ 0
  = Some (if tied_emb d then zeros1 (input_size d)
          else map (out2prob_entry rnd 0) (seq 0 (input_size d))).
Proof.
  intros Hinit.
  pose proof (init_spec a rnd σ0 d σ Hinit) as Hspec. cbv zeta in Hspec.
  destruct Hspec as (Hv & _ & _ & _ & Hin & _ & _ & Ht & _ & _ & Hout & _).
  unfold out2prob_weight_row. rewrite Hout, Ht, Hin.
  destruct (arg_tied_emb a).
  - apply list_lookup_insert_eq. rewrite init_mat_length. lia.
  - unfold init_mat. rewrite list_lookup_fmap, lookup_seq_lt by done.
    reflexivity.
Qed.

Lemma projection_padding_row_witness :
  ∃ d σ, __init__ tied_args demo_draws ∅ = Ok (d, σ) ∧
         out2prob_weight_row d σ 0 = Some [Fin 0].
Proof.
  destruct (init_total tied_args demo_draws ∅) as (d & σ & Hinit);
    [simpl; lia|by eexists|by eexists|done|].
  exists d, σ. split; [done|].
  pose proof (projection_padding_row tied_args demo_draws ∅ d σ Hinit) as E.
  pose proof (init_spec tied_args demo_draws ∅ d σ Hinit) as Hspec.
  cbv zeta in Hspec.
  destruct Hspec as (_ & _ & _ & _ & Hin & _ & _ & Ht & _).
  by rewrite Ht, Hin in E.
Defined.

(** ** When a step fails *)

(** X8.  [f_next] reads the dictionary lazily.  Without the textual
    stream it raises the missing-key error for ["txt"] only after the
    stage-1 cell has run; with the textual but without the visual stream
    it raises the error for ["image"] only after the stage-1 cell and the
    textual attention have run.  Nothing after the failed lookup is
    called. *)
Theorem f_next_reads_keys_lazily `{Layers} seed d σ
    (ctx_dict : gmap string (tensor3 * tensor2)) y (h : mat) :
  (ctx_dict !! "txt" = None →
   f_next seed d σ ctx_dict y (Some h)
   = ([Enter_f_next y (Some h); Call_dec0 y (Some h)],
      Raise (KeyError "txt"))) ∧
  (∀ txt, ctx_dict !! "txt" = Some txt → ctx_dict !! "image" = None →
   f_next seed d σ ctx_dict y (Some h)
   = ([Enter_f_next y (Some h); Call_dec0 y (Some h);
       Call_txt_att (unsqueeze0 (dec0 y h)) txt.1 txt.2],
      Raise (KeyError "image"))).
Proof.
  split.
  - intros Htxt. unfold f_next, f_next_body, dict_get, call_dec0.
    by rewrite Htxt.
  - intros txt Htxt Himg.
    unfold f_next, f_next_body, dict_get, call_dec0, call_txt_att.
    rewrite Htxt, Himg. cbn. by destruct (txt_att _ _ _).
Qed.

(** X9.  An initialiser policy that is neither ["zero"] nor ["mean_ctx"]
    surfaces at the first decoding step.  On a target of at least two
    time steps [forward] embeds the target, gets no hidden state from
    [f_init], and enters [f_next] with the embedding of [y[0]] and [None];
    when the stage-1 cell rejects a missing hidden state, [forward] ends
    there with the cell's error. *)
Theorem forward_unrecognised_policy `{Layers} seeds d σ
    (ctx_dict : gmap string (tensor3 * tensor2)) (y : list (list Z)) txt :
  dec_init d ≠ "zero" →
  dec_init d ≠ "mean_ctx" →
  ctx_dict !! "txt" = Some txt →
  valid_ids (length (σ !!! emb_weight d)) y →
  2 ≤ length y →
  ∃ ids (x_0 : mat),
    y !! 0 = Some ids ∧
    emb_row (σ !!! emb_weight d) ids = ([], Ok x_0) ∧
    ∀ e, dec0_nohx x_0 = Raise e →
      forward seeds d σ ctx_dict y
      = ([Enter_f_next x_0 None; Call_dec0 x_0 None], Raise e).
Proof.
  intros Hz Hm Htxt Hv Hlen.
  destruct (emb_ok _ _ Hv) as (y_emb & Hemb & Hall).
  pose proof (Forall2_length _ _ _ Hall) as Hlen_emb.
  destruct (lookup_lt_is_Some_2 y 0) as [ids Hids]; [lia|].
  destruct (Forall2_lookup_l _ _ _ _ _ Hall Hids) as (x_0 & Hx & Hrow & _).
  exists ids, x_0. split; [done|]. split; [done|].
  intros e He. unfold forward.
  rewrite (bind_ok _ _ [] y_emb [Enter_f_next x_0 None; Call_dec0 x_0 None]
             (Raise e) Hemb); [done|].
  unfold dict_get. rewrite Htxt, bind_ret.
  rewrite (bind_ok _ _ [] None [Enter_f_next x_0 None; Call_dec0 x_0 None]
             (Raise e) (f_init_unrecognised d txt.1 txt.2 Hz Hm)); [done|].
  unfold range.
  replace (Z.to_nat (Z.of_nat (length y_emb) - 1))
    with (S (length y_emb - 2)) by lia.
  apply bind_raise. cbn [seq for_each]. apply bind_raise.
  unfold forward_step, index. rewrite Hx, bind_ret.
  apply bind_raise. unfold f_next.
  change (emit (Enter_f_next x_0 None) ≫= _)
    with (let '(l', r) :=
            (f_next_body (seeds 0) d σ ctx_dict x_0 None
             ≫= λ r, emit (Leave_f_next r.1 r.2) ≫= λ _, mret r)
          in (Enter_f_next x_0 None :: l', r)).
  assert (f_next_body (seeds 0) d σ ctx_dict x_0 None
          = ([Call_dec0 x_0 None], Raise e)) as ->; [|done].
  unfold f_next_body, call_dec0, lift. by rewrite He.
Qed.

Lemma forward_unrecognised_policy_witness :
  forward (H := zero_layers) demo_seeds odd_decoder demo_store demo_ctx_dict demo_target
  = ([Enter_f_next [[Fin 1]] None; Call_dec0 [[Fin 1]] None],
     Raise TypeError).
Proof.
  destruct (forward_unrecognised_policy (H := zero_layers) demo_seeds odd_decoder
              demo_store demo_ctx_dict demo_target demo_stream)
    as (ids & x_0 & Hids & Hx & Hfail);
    [done|done|reflexivity|exact demo_valid_ids|simpl; lia|].
  injection Hids as <-. injection Hx as <-.
  by apply Hfail.
Defined.

Lemma f_next_reads_keys_lazily_witness :
  ∃ log, f_next (H := zero_layers) 0 demo_decoder demo_store img_ctx_dict
           demo_y (Some demo_h) = (log, Raise (KeyError "image"))
         ∧ length log = 3.
Proof.
  eexists. split.
  - apply (proj2 (f_next_reads_keys_lazily (H := zero_layers) 0 demo_decoder
                    demo_store img_ctx_dict demo_y demo_h)
             demo_stream eq_refl eq_refl).
  - reflexivity.
Defined.

(** ** The sign of the loss *)

Lemma neg_log_softmax_nonneg (scores : mat) :
  Forall (Forall is_fin) scores →
  Forall (Forall nonneg) (neg_log_softmax scores).
Proof.
  intros Hfin. unfold neg_log_softmax. rewrite Forall_map.
  eapply Forall_impl; [exact Hfin|]. intros x Hx. simpl.
  destruct (Forall_fin_map x Hx) as [rs ->].
  destruct rs as [|r rs]; [constructor|].
  apply neg_log_softmax_row_distribution; [done|].
  rewrite (log_softmax_fin (r :: rs)) by done.
  rewrite Forall_map. by apply Forall_true.
Qed.

Lemma foldl_fadd_nonneg (v : vec) a :
  (0 <= a)%R → Forall nonneg v → nonneg (foldl fadd (Fin a) v).
Proof.
  intros Ha Hv. revert a Ha.
  induction Hv as [|x v (r & -> & Hr) _ IH]; intros a Ha.
  - by exists a.
  - simpl. apply IH. lra.
Qed.

(** X10.  The loss is a sum of non-negative terms.  A well-formed call of
    [forward] returns, and if every score the vocabulary projection
    produced during the run is finite, then every term added to the loss
    is a non-negative real, and so is the loss. *)
Theorem forward_loss_nonneg `{Layers} `{!LayerShapes} seeds d σ
    (ctx_dict : gmap string (tensor3 * tensor2)) (y : list (list Z))
    txt img B :
  wf_decoder d →
  dec_init d = "zero" ∨ dec_init d = "mean_ctx" →
  ctx_dict !! "txt" = Some txt →
  ctx_dict !! "image" = Some img →
  valid_ids (length (σ !!! emb_weight d)) y →
  valid_ids (length (σ !!! out2prob_weight d)) y →
  rect B y →
  1 ≤ length y →
  ∃ log loss,
    forward seeds d σ ctx_dict y = (log, Ok loss) ∧
    (finite_scores_in log →
     nonneg loss ∧ Forall (λ p, nonneg p.2) (loss_terms log)).
Proof.
  intros Hwf Hrec Htxt Himg Hv1 Hv2 Hrect Hlen.
  destruct (forward_run seeds d σ ctx_dict y txt img B Hwf Hrec Htxt Himg Hv1 Hv2
              Hrect Hlen)
    as (log & loss & il & h0 & Hrun & _ & _ & Hn & _ & Hloss & Hsteps).
  exists log, loss. split; [done|]. intros Hfs.
  assert (Forall (λ p, nonneg p.2) (loss_terms log)) as Hterms.
  { apply Forall_lookup_2. intros t p Hp.
    pose proof (lookup_lt_Some _ _ _ Hp) as Ht.
    destruct (Hsteps t ltac:(lia))
      as (ids & yn & x & h & lp & h2 & pk & sl & _ & _ & _ & _ & Hstep & _
          & Hpick & Hterm & Hsub).
    rewrite Hterm in Hp. injection Hp as <-. simpl.
    destruct (f_next_scores _ _ _ _ _ _ _ _ _ Hstep) as (logit & Hcalls & ->).
    apply foldl_fadd_nonneg; [lra|].
    eapply Forall_impl; [exact (entries_at_elems _ _ _ Hpick)|].
    intros e (row & Hrow & He).
    assert (Forall (Forall is_fin) (out2prob (σ !!! out2prob_weight d) logit))
      as Hfin.
    { assert ((σ !!! out2prob_weight d, logit) ∈ out2prob_calls log) as Hcall.
      { apply (out2prob_calls_mono sl log Hsub). rewrite Hcalls. left. }
      exact (proj1 (Forall_forall _ _) Hfs _ Hcall). }
    pose proof (neg_log_softmax_nonneg _ Hfin) as Hnn.
    apply (proj1 (Forall_forall _ _) Hnn) in Hrow.
    by apply (proj1 (Forall_forall _ _) Hrow). }
  split; [|done].
  rewrite Hloss. apply foldl_fadd_nonneg; [lra|].
  rewrite Forall_map. exact Hterms.
Qed.

#[global] Instance linear_layers_shapes : @LayerShapes linear_layers.
Proof.
  split; simpl; intros.
  - by rewrite length_map, length_seq.
  - done.
  - by rewrite length_map.
  - destruct (Nat.even seed); [done|]. by rewrite length_map.
  - by rewrite length_map.
  - rewrite Forall_map. apply Forall_true. intros r. simpl.
    by rewrite length_map.
Qed.

Lemma linear_demo_forward :
  ∃ log loss,
    forward (H := linear_layers) demo_seeds demo_decoder demo_store
      demo_ctx_dict demo_target = (log, Ok loss) ∧
    @finite_scores_in linear_layers log.
Proof.
  eexists _, _. split; [reflexivity|].
  unfold finite_scores_in. simpl. repeat constructor.
Qed.

Lemma forward_loss_nonneg_witness :
  ∃ log loss, forward (H := linear_layers) demo_seeds demo_decoder demo_store
                demo_ctx_dict demo_target = (log, Ok loss) ∧ nonneg loss.
Proof.
  destruct (forward_loss_nonneg (H := linear_layers) demo_seeds demo_decoder
              demo_store demo_ctx_dict demo_target demo_stream demo_stream 1
              demo_wf (or_introl eq_refl) eq_refl eq_refl
              demo_valid_ids demo_valid_ids
              ltac:(repeat constructor) ltac:(simpl; lia))
    as (log & loss & Hrun & Hnn).
  exists log, loss. split; [done|].
  destruct linear_demo_forward as (log' & loss' & Hrun' & Hfin).
  assert (log' = log) as -> by congruence.
  by destruct (Hnn Hfin).
Defined.

(** ** Scoring one more time step *)

(** X11.  Scoring is incremental.  Take a run on a well-formed target and
    a run on the same target with one more row [r] appended; if the module
    has output dropout, let the two runs make the same draws on the steps
    they share.  Then the longer run has every loss term of the shorter one
    and exactly one more, the one whose target is [r]: its loss is the loss
    of the shorter target plus that term. *)
Theorem forward_extend `{Layers} `{!LayerShapes} seeds seeds' d σ
    (ctx_dict : gmap string (tensor3 * tensor2)) (y : list (list Z))
    (r : list Z) txt img B :
  wf_decoder d →
  dec_init d = "zero" ∨ dec_init d = "mean_ctx" →
  ctx_dict !! "txt" = Some txt →
  ctx_dict !! "image" = Some img →
  valid_ids (length (σ !!! emb_weight d)) (y ++ [r]) →
  valid_ids (length (σ !!! out2prob_weight d)) (y ++ [r]) →
  rect B (y ++ [r]) →
  1 ≤ length y →
  (positive_rate (dropout_out d) = true →
   ∀ t, t + 1 < length y → seeds' t = seeds t) →
  ∃ log loss log' loss' term,
    forward seeds d σ ctx_dict y = (log, Ok loss) ∧
    forward seeds' d σ ctx_dict (y ++ [r]) = (log', Ok loss') ∧
    loss_terms log' = loss_terms log ++ [(r, term)] ∧
    loss' = fadd loss term.
Proof.
  intros Hwf Hrec Htxt Himg Hv1' Hv2' Hrect' Hlen Hdraws.
  pose proof Hv1' as Hv1. apply Forall_app in Hv1 as [Hv1 _].
  pose proof Hv2' as Hv2. apply Forall_app in Hv2 as [Hv2 _].
  pose proof Hrect' as Hrect. apply Forall_app in Hrect as [Hrect _].
  destruct (forward_run seeds d σ ctx_dict y txt img B Hwf Hrec Htxt Himg Hv1 Hv2
              Hrect Hlen)
    as (log & loss & il & h0 & Hrun & Hinit & _ & Hn & Hth & Hloss & Hsteps).
  destruct (forward_run seeds' d σ ctx_dict (y ++ [r]) txt img B Hwf Hrec Htxt
              Himg Hv1' Hv2' Hrect' ltac:(rewrite length_app; simpl; lia))
    as (log' & loss' & il' & h0' & Hrun' & Hinit' & _ & Hn' & Hth' & Hloss'
        & Hsteps').
  assert (h0' = h0) as -> by congruence.
  rewrite length_app in Hn', Hsteps'. simpl in Hn', Hsteps'.
  set (n := length y - 1) in *.
  assert (∀ k, k < n →
            f_next_outputs log' !! k = f_next_outputs log !! k) as Hout.
  { intros k Hk.
    eapply (traces_agree_draws seeds seeds' d σ ctx_dict _ y (y ++ [r]) txt
              img log log' h0 n); try done.
    - intros j Hj. apply Hsteps. lia.
    - intros j Hj. apply Hsteps'. lia.
    - apply take_app_le. lia.
    - intros Hp j Hj. apply Hdraws; [done|lia]. }
  destruct (Hsteps' n ltac:(lia))
    as (ids & yn & x & h & lp & h2 & pk & sl & _ & Hyn & _ & _ & _ & _ & _
        & Hlast & _).
  simpl in Hyn.
  assert (yn = r) as ->.
  { rewrite lookup_app_r in Hyn by lia.
    replace (n + 1 - length y) with 0 in Hyn by lia. by injection Hyn. }
  assert (loss_terms log' = loss_terms log ++ [(r, foldl fadd (Fin 0) pk)])
    as Hterms.
  { apply list_eq. intros k.
    destruct (decide (k < n)) as [Hk|Hk].
    - rewrite lookup_app_l by lia.
      destruct (Hsteps k ltac:(lia))
        as (? & yn1 & ? & ? & lp1 & h21 & pk1 & ? & _ & Hy1 & _ & _ & _ & Ho1
            & Hg1 & -> & _).
      destruct (Hsteps' k ltac:(lia))
        as (? & yn2 & ? & ? & lp2 & h22 & pk2 & ? & _ & Hy2 & _ & _ & _ & Ho2
            & Hg2 & -> & _).
      simpl in Hy1, Hy2. rewrite lookup_app_l in Hy2 by lia.
      assert (yn2 = yn1) as -> by congruence.
      rewrite (Hout k Hk), Ho1 in Ho2. injection Ho2 as <- <-.
      by rewrite (entries_at_fun _ _ _ _ Hg1 Hg2).
    - destruct (decide (k = n)) as [->|Hne].
      + rewrite lookup_app_r by lia. rewrite Hn, Nat.sub_diag. exact Hlast.
      + rewrite !lookup_ge_None_2; [done| |lia].
        rewrite length_app. simpl. lia. }
  exists log, loss, log', loss', (foldl fadd (Fin 0) pk).
  split; [done|]. split; [done|]. split; [done|].
  rewrite Hloss', Hterms, Hloss, map_app, foldl_app. reflexivity.
Qed.

Lemma dropout_decoder_wf : wf_decoder dropout_decoder.
Proof. split; reflexivity. Qed.

(** With output dropout at rate 1/2, two runs whose draws agree at step 0
    and differ at step 1. *)
Lemma forward_extend_witness :
  ∃ log loss log' loss' term,
    forward (H := linear_layers) demo_seeds dropout_decoder demo_store
      demo_ctx_dict demo_target = (log, Ok loss) ∧
    forward (H := linear_layers) alt_seeds dropout_decoder demo_store
      demo_ctx_dict (demo_target ++ [[1%Z]]) = (log', Ok loss') ∧
    loss_terms log' = loss_terms log ++ [([1%Z], term)] ∧
    loss' = fadd loss term.
Proof.
  apply (forward_extend (H := linear_layers) demo_seeds alt_seeds
           dropout_decoder demo_store demo_ctx_dict demo_target [1%Z]
           demo_stream demo_stream 1
           dropout_decoder_wf (or_introl eq_refl) eq_refl eq_refl).
  - change (valid_ids 2 (demo_target ++ [[1%Z]])). repeat constructor; lia.
  - change (valid_ids 2 (demo_target ++ [[1%Z]])). repeat constructor; lia.
  - repeat constructor.
  - simpl. lia.
  - intros _ t Ht. simpl in Ht. by assert (t = 0) as -> by lia.
Defined.

(** ** The shape of the initialiser's argument *)

(** X12.  Under [mean_ctx], for a stream of shape [S*B*C] with a mask of
    shape [S*B], the tensor that [f_init] hands to the initialiser's
    projection has shape [B*C]: one row per batch element, of the width of
    the textual context, whatever the number [S] of positions, zero
    included. *)
Theorem mean_ctx_argument_shape `{Layers} d (txt_ctx : tensor3)
    (txt_ctx_mask : tensor2) :
  wf_decoder d →
  dec_init d = "mean_ctx" →
  same_positions txt_ctx txt_ctx_mask →
  ∃ x, f_init d txt_ctx txt_ctx_mask
       = ([Call_ff_dec_init x], Ok (Some (ff_dec_init x))) ∧
       length x = size1 txt_ctx ∧
       Forall (λ r : vec, length r = size2 txt_ctx) x.
Proof.
  intros Hwf Hm Hsame.
  exists (tdiv (sum0_3 txt_ctx) (unsqueeze1 (sum0_2 txt_ctx_mask))).
  split; [exact (f_init_mean d txt_ctx txt_ctx_mask Hwf Hm)|].
  destruct (sums_lengths _ _ Hsame) as [Hl3 Hl2]. split.
  - unfold tdiv, unsqueeze1. rewrite length_zip_with, length_map. lia.
  - apply Forall_lookup_2. intros b row Hrow.
    rewrite tdiv_lookup in Hrow.
    destruct (sum0_3 txt_ctx !! b) as [num|] eqn:Hnum; [|done].
    destruct (sum0_2 txt_ctx_mask !! b) as [c|] eqn:Hc; [|done].
    simpl in Hrow. injection Hrow as <-.
    assert (b < size1 txt_ctx) as Hb.
    { apply lookup_lt_Some in Hc. lia. }
    destruct (sums_rows _ _ b Hsame Hb) as [Hsum _].
    rewrite Hsum in Hnum. injection Hnum as <-.
    rewrite length_map, foldl_vadd_length; [apply zeros1_length|].
    rewrite zeros1_length.
    by destruct (same_positions_cols _ _ b Hsame Hb) as (_ & _ & Hw & _).
Qed.

Lemma mean_ctx_argument_shape_witness :
  ∃ x, f_init (H := zero_layers) mean_decoder clean_ctx dirty_mask
       = ([Call_ff_dec_init x], Ok (Some (@ff_dec_init zero_layers x))) ∧
       length x = 1 ∧ Forall (λ r : vec, length r = 1) x.
Proof.
  exact (mean_ctx_argument_shape (H := zero_layers) mean_decoder clean_ctx
           dirty_mask mean_decoder_wf eq_refl clean_positions).
Defined.
